(** * Volatile: hierarchical trend model, staged training, statistics, rating

    A shallow embedding of [volatile.py].  Floating-point arrays are
    idealised: the numeric transforms ([softplus], the log-normal moments,
    the polynomial time basis, the score) are modelled over the real
    numbers, so rounding, overflow and the [astype('float32')] casts are
    not represented.  The rating function only compares scores with
    thresholds; there the scores are finite rationals (every finite float
    is one) extended by the three non-finite float values.

    TensorFlow Probability is not part of the repository: the random
    draw from a distribution, the log-density of a normal and the update
    rule of the Adam optimizer are parameters of the development; what
    [train] itself does with them (which variables exist, which are
    frozen, how many steps are run) is modelled explicitly on a store of
    variables. *)

From Stdlib Require Import Reals QArith Qround ZArith Lia Psatz.
From stdpp Require Import gmap strings list.
Import QMicromega.

(** ** Exceptions and fallible computations *)

Inductive exn :=
| Exception (msg : string)
| KeyError (key : string)
| IndexError
| ValueError
| TypeError
| InvalidArgumentError
| ZeroDivisionError.

Inductive result (A : Type) :=
| Ok (a : A)
| Raise (e : exn).
Arguments Ok {A} a.
Arguments Raise {A} e.

#[global] Instance result_ret : MRet result := fun _ a => Ok a.
#[global] Instance result_bind : MBind result := fun _ _ f m =>
  match m with
  | Ok a => f a
  | Raise e => Raise e
  end.
#[global] Instance result_fmap : FMap result := fun _ _ f m =>
  match m with
  | Ok a => Ok (f a)
  | Raise e => Raise e
  end.

Definition is_Ok {A} (m : result A) : Prop := exists a, m = Ok a.

(** ** Rating (lines 186-218) *)

(** The value of one entry of the [scores] array, or of a threshold. *)
Inductive np_float :=
| Finite (q : Q)
| PInf
| NInf
| NaN.

(** [a > b] on floats; every comparison with NaN is false. *)
Definition gt (a b : np_float) : bool :=
  match a, b with
  | Finite x, Finite y => Qlt_bool y x
  | PInf, Finite _ => true
  | PInf, NInf => true
  | Finite _, NInf => true
  | _, _ => false
  end.

Definition HIGHLY_BELOW : string := "HIGHLY BELOW TREND".
Definition BELOW : string := "BELOW TREND".
Definition ALONG : string := "ALONG TREND".
Definition ABOVE : string := "ABOVE TREND".
Definition HIGHLY_ABOVE : string := "HIGHLY ABOVE TREND".

(** The dictionary literal of lines 204-205. *)
Definition default_thresholds : gmap string np_float :=
  <[HIGHLY_BELOW := Finite 3]>
    (<[BELOW := Finite 2]>
       (<[ALONG := Finite 0]>
          (<[ABOVE := Finite (-2)]>
             (<[HIGHLY_ABOVE := Finite (-3)]> ∅)))).

(** [thresholds[key]]: a missing key raises [KeyError]. *)
Definition getitem (thresholds : gmap string np_float) (key : string)
  : result np_float :=
  match thresholds !! key with
  | Some v => Ok v
  | None => Raise (KeyError key)
  end.

(** The [if]/[elif] chain of lines 208-217 for one score: a threshold is
    looked up only when its branch is reached. *)
Definition rate_one (thresholds : gmap string np_float) (s : np_float)
  : result string :=
  t1 ← getitem thresholds HIGHLY_BELOW;
  if gt s t1 then Ok HIGHLY_BELOW else
  t2 ← getitem thresholds BELOW;
  if gt s t2 then Ok BELOW else
  t3 ← getitem thresholds ALONG;
  if gt s t3 then Ok ALONG else
  t4 ← getitem thresholds ABOVE;
  if gt s t4 then Ok ABOVE else
  Ok HIGHLY_ABOVE.

(** The [for] loop of lines 207-217; [rates] is the list built so far. *)
Fixpoint rate_loop (thresholds : gmap string np_float)
    (scores : list np_float) (rates : list string) : result (list string) :=
  match scores with
  | [] => Ok rates
  | s :: rest =>
      r ← rate_one thresholds s;
      rate_loop thresholds rest (rates ++ [r])
  end.

Definition rate (scores : list np_float)
    (thresholds : option (gmap string np_float)) : result (list string) :=
  let thresholds :=
    match thresholds with
    | None => default_thresholds
    | Some d => d
    end in
  rate_loop thresholds scores [].

(** The label the default thresholds give to a finite score, written as
    the five bins. *)
Definition default_bin (q : Q) : string :=
  if Qlt_bool 3 q then HIGHLY_BELOW
  else if Qlt_bool 2 q then BELOW
  else if Qlt_bool 0 q then ALONG
  else if Qlt_bool (-2) q then ABOVE
  else HIGHLY_ABOVE.

(** ** Arrays

    Arrays of rank 0, 1 and 2 over the reals; a rank-2 array is the list
    of its rows.  Only rectangular arrays occur in the program. *)

Local Open Scope R_scope.

Inductive tensor :=
| T0 (x : R)
| T1 (v : list R)
| T2 (m : list (list R)).

(** Elementwise application of a function ([np.exp], [np.sqrt], a
    scalar operand of an arithmetic operator, ...). *)
Definition tmap (f : R -> R) (a : tensor) : tensor :=
  match a with
  | T0 x => T0 (f x)
  | T1 v => T1 (map f v)
  | T2 m => T2 (map (map f) m)
  end.

Definition zeros_like (a : tensor) : tensor := tmap (fun _ => 0) a.
Definition zeros (rows cols : nat) : tensor := T2 (replicate rows (replicate cols 0)).
Definition ones (rows cols : nat) : tensor := T2 (replicate rows (replicate cols 1)).

Fixpoint mapR {A B} (f : A -> result B) (l : list A) : result (list B) :=
  match l with
  | [] => Ok []
  | x :: l' => y ← f x; ys ← mapR f l'; Ok (y :: ys)
  end.

(** Broadcasting along one axis: equal lengths are combined pointwise,
    an axis of length one is stretched, anything else is an error. *)
Definition brow (f : R -> R -> R) (u v : list R) : result (list R) :=
  if decide (length u = length v) then Ok (zip_with f u v)
  else match u, v with
       | [x], _ => Ok (map (f x) v)
       | _, [y] => Ok (map (fun x => f x y) u)
       | _, _ => Raise ValueError
       end.

Definition bmat (f : R -> R -> R) (a b : list (list R))
  : result (list (list R)) :=
  if decide (length a = length b)
  then mapR (fun uv => brow f (fst uv) (snd uv)) (zip a b)
  else match a, b with
       | [u], _ => mapR (fun v => brow f u v) b
       | _, [v] => mapR (fun u => brow f u v) a
       | _, _ => Raise ValueError
       end.

(** A binary arithmetic operator on arrays, with broadcasting. *)
Definition bop (f : R -> R -> R) (a b : tensor) : result tensor :=
  match a, b with
  | T0 x, _ => Ok (tmap (f x) b)
  | _, T0 y => Ok (tmap (fun x => f x y) a)
  | T1 u, T1 v => T1 <$> brow f u v
  | T1 u, T2 m => T2 <$> bmat f [u] m
  | T2 m, T1 v => T2 <$> bmat f m [v]
  | T2 m, T2 n => T2 <$> bmat f m n
  end.

Definition inner (u v : list R) : R := foldr Rplus 0 (zip_with Rmult u v).
Definition column (t : nat) (m : list (list R)) : list R :=
  map (fun r => nth t r 0) m.
Definition ncols (m : list (list R)) : nat :=
  match m with
  | [] => 0%nat
  | r :: _ => length r
  end.

Definition matmul (a b : list (list R)) : result (list (list R)) :=
  if forallb (fun r => Nat.eqb (length r) (length b)) a
  then Ok (map (fun r => map (fun t => inner r (column t b)) (seq 0 (ncols b))) a)
  else Raise ValueError.

(** [np.dot] *)
Definition np_dot (a b : tensor) : result tensor :=
  match a, b with
  | T0 x, _ => Ok (tmap (Rmult x) b)
  | _, T0 y => Ok (tmap (fun x => x * y) a)
  | T1 u, T1 v =>
      if decide (length u = length v) then Ok (T0 (inner u v)) else Raise ValueError
  | T2 m, T1 v =>
      if forallb (fun r => Nat.eqb (length r) (length v)) m
      then Ok (T1 (map (fun r => inner r v) m)) else Raise ValueError
  | T1 u, T2 m =>
      r ← matmul [u] m; Ok (T1 (concat r))
  | T2 m, T2 n => T2 <$> matmul m n
  end.

(** [tf.tensordot(a, b, axes=1)]: contraction of the last axis of [a]
    with the first axis of [b]. *)
Definition tensordot (a b : tensor) : result tensor :=
  match a, b with
  | T0 _, _ | _, T0 _ => Raise InvalidArgumentError
  | _, _ => np_dot a b
  end.

Definition getrow {A} (m : list A) (i : nat) : result A :=
  match m !! i with
  | Some r => Ok r
  | None => Raise InvalidArgumentError
  end.

(** [tf.gather(x, ids, axis=0)]; an index out of range is an error. *)
Definition gather (x : tensor) (ids : list nat) : result tensor :=
  match x with
  | T0 _ => Raise InvalidArgumentError
  | T1 v => T1 <$> mapR (getrow v) ids
  | T2 m => T2 <$> mapR (getrow m) ids
  end.

(** [tf.repeat(x, n, axis=0)]: every row is repeated [n] times. *)
Definition repeat0 (x : tensor) (n : nat) : result tensor :=
  match x with
  | T0 _ => Raise InvalidArgumentError
  | T1 v => Ok (T1 (concat (map (replicate n) v)))
  | T2 m => Ok (T2 (concat (map (replicate n) m)))
  end.

(** [x.squeeze()]: every axis of length one is removed. *)
Definition squeeze (x : tensor) : tensor :=
  match x with
  | T0 _ => x
  | T1 [a] => T0 a
  | T1 _ => x
  | T2 [[a]] => T0 a
  | T2 [r] => T1 r
  | T2 m => if forallb (fun r => Nat.eqb (length r) 1) m then T1 (concat m) else x
  end.

(** [x[:, j]] *)
Definition getcol (x : tensor) (j : nat) : result tensor :=
  match x with
  | T2 m =>
      T1 <$> mapR (fun r => match r !! j with
                            | Some a => Ok a
                            | None => Raise IndexError
                            end) m
  | _ => Raise IndexError
  end.

(** [x[:, -1]] *)
Definition lastcol (x : tensor) : result tensor :=
  match x with
  | T2 m =>
      T1 <$> mapR (fun r => match last r with
                            | Some a => Ok a
                            | None => Raise IndexError
                            end) m
  | _ => Raise IndexError
  end.

(** ** Statistic estimator (lines 139-184) *)

Definition softplus (x : tensor) : tensor :=
  tmap ln (tmap (Rplus 1) (tmap exp x)).

Definition estimate_logprice_statistics (phi psi tt : tensor)
  : result (tensor * tensor) :=
  mean ← np_dot phi tt;
  Ok (mean, softplus psi).

Definition square (x : tensor) : tensor := tmap (fun a => a ^ 2) x.

Definition estimate_price_statistics (mu sigma : tensor)
  : result (tensor * tensor) :=
  a ← bop Rplus mu (tmap (fun x => x / 2) (square sigma));
  b ← bop Rplus (tmap (Rmult 2) mu) (square sigma);
  c ← bop Rmult (tmap exp b) (tmap (fun x => x - 1) (tmap exp (square sigma)));
  Ok (tmap exp a, tmap sqrt c).

(** ** Model definition (lines 16-64) *)

(** The [info] dictionary: the hierarchy index completed in [__main__]
    with the time basis and the order scale. *)
Record info_t := {
  tt : tensor;
  order_scale : tensor;
  num_sectors : nat;
  num_industries : nat;
  sector_industries_id : list nat;
  industries_id : list nat;
  sectors_id : list nat
}.

Record Normal := { loc : tensor; scale : tensor }.

(** An entry of the list given to [JointDistributionSequentialAutoBatched]:
    a distribution, or a [lambda] of two earlier values.  The first
    parameter of the [lambda] receives the value sampled last, the second
    the one before. *)
Inductive layer :=
| Dist (d : Normal)
| Lam (f : tensor -> tensor -> result Normal).

(** [len(x)]: the size of the first axis. *)
Definition len (x : tensor) : result nat :=
  match x with
  | T0 _ => Raise TypeError
  | T1 v => Ok (length v)
  | T2 m => Ok (length m)
  end.

Definition available_levels : list string :=
  ["market"; "sector"; "industry"; "stock"]%string.

Definition unknown_level_msg : string :=
  "Selected level is unknown. Please provide one of the following levels: ['market', 'sector', 'industry', 'stock'].".

(** The observation layer [y] of lines 55-62. *)
Definition observation (tt : tensor) : layer :=
  Lam (fun psi phi =>
         mean ← tensordot phi tt;
         Ok {| loc := mean; scale := softplus psi |}).

Definition define_model (info : info_t) (level : string) : result (list layer) :=
  let tt := tt info in
  let order_scale := order_scale info in
  n ← len order_scale;
  let order := (n - 1)%nat in
  let num_sectors := num_sectors info in
  let sec2ind_id := sector_industries_id info in
  let ind_id := industries_id info in
  if bool_decide (level ∉ available_levels)
  then Raise (Exception unknown_level_msg)
  else
    let m := [ Dist {| loc := zeros 1 (order + 1);
                       scale := tmap (Rmult 4) order_scale |};   (* phi_m *)
               Dist {| loc := T0 0; scale := T0 4 |} ] in        (* psi_m *)
    let m :=
      if bool_decide (level ≠ "market"%string) then
        let m := m ++
          [ Lam (fun psi_m phi_m =>
                   l ← repeat0 phi_m num_sectors;
                   Ok {| loc := l; scale := tmap (Rmult 2) order_scale |});  (* phi_s *)
            Lam (fun phi_s psi_m =>
                   Ok {| loc := psi_m;
                         scale := tmap (Rmult 2) (ones num_sectors 1) |}) ]  (* psi_s *)
        in
        if bool_decide (level ≠ "sector"%string) then
          let sec2ind_id := sector_industries_id info in
          let m := m ++
            [ Lam (fun psi_s phi_s =>
                     l ← gather phi_s sec2ind_id;
                     Ok {| loc := l; scale := order_scale |});               (* phi_i *)
              Lam (fun phi_i psi_s =>
                     l ← gather psi_s sec2ind_id;
                     Ok {| loc := l; scale := T0 1 |}) ]                     (* psi_i *)
          in
          if bool_decide (level ≠ "industry"%string) then
            let ind_id := industries_id info in
            m ++
            [ Lam (fun psi_i phi_i =>
                     l ← gather phi_i ind_id;
                     Ok {| loc := l; scale := tmap (Rmult (1/2)) order_scale |}); (* phi *)
              Lam (fun phi psi_i =>
                     l ← gather psi_i ind_id;
                     Ok {| loc := l; scale := T0 (1/2) |}) ]                 (* psi *)
          else m
        else m
      else m in
    let m := if bool_decide (level = "market"%string) then m ++ [observation tt] else m in
    let m := if bool_decide (level = "sector"%string) then m ++ [observation tt] else m in
    let m := if bool_decide (level = "industry"%string) then m ++ [observation tt] else m in
    let m := if bool_decide (level = "stock"%string) then m ++ [observation tt] else m in
    Ok m.

(** The distribution of entry [k] of a model, given the values of the
    entries before it ([prev], the most recent first). *)
Definition apply_layer (l : layer) (prev : list tensor) : result Normal :=
  match l with
  | Dist d => Ok d
  | Lam f =>
      match prev with
      | a :: b :: _ => f a b
      | _ => Raise TypeError
      end
  end.

(** ** Time basis, scores and the ranking option (in [__main__]) *)

(** [np.linspace(start, stop, num)] *)
Definition linspace (start stop : R) (num : nat) : list R :=
  let div := (num - 1)%nat in
  let delta := stop - start in
  let y := map INR (seq 0 num) in
  let y := if decide (0 < div)%nat
           then map (fun a => a * (delta / INR div) + start) y
           else map (fun a => a * delta + start) y in
  if decide (1 < num)%nat then <[(num - 1)%nat := stop]> y else y.

(** [base ** np.arange(n).reshape(-1, 1)], for a one-dimensional [base]:
    row [k] of the result is [base] raised to the power [k]. *)
Definition power_outer (base : list R) (exps : list nat) : list (list R) :=
  map (fun k => map (fun x => x ^ k) base) exps.

(** Line 266; [t] is the number of observed time steps. *)
Definition time_basis (t order : nat) : result tensor :=
  if decide (t = 0)%nat then Raise ZeroDivisionError
  else Ok (T2 (power_outer (linspace (1 / INR t) 1 t) (seq 0 (order + 1)))).

(** Line 277. *)
Definition tt_pred (t horizon order : nat) : tensor :=
  T2 (power_outer (map (fun h => 1 + INR h / INR t) (seq 0 (1 + horizon)))
                  (seq 0 (order + 1))).

(** Line 268. *)
Definition order_scale_of (order : nat) : tensor :=
  T2 [rev (linspace (1 / INR (order + 1)) 1 (order + 1))].

(** Line 289. *)
Definition scores (logp_pred logp std_logp_pred : tensor) (horizon : nat)
  : result tensor :=
  a ← getcol logp_pred horizon;
  b ← lastcol logp;
  d ← bop Rminus a b;
  bop Rdiv d (squeeze std_logp_pred).

(** [str.lower] on ASCII letters. *)
Definition lower_ascii (c : Ascii.ascii) : Ascii.ascii :=
  let n := Ascii.nat_of_ascii c in
  if (Nat.leb 65 n && Nat.leb n 90)%bool then Ascii.ascii_of_nat (n + 32) else c.

Fixpoint lower (s : string) : string :=
  match s with
  | EmptyString => EmptyString
  | String c s' => String (lower_ascii c) (lower s')
  end.

Definition rank_modes : list string := ["rate"; "growth"]%string.

(** Lines 236-237 followed by the rest of [__main__]: [pipeline] stands
    for everything from line 239 on, acting on a [world] (downloaded
    data, files written, text printed). *)
Definition main {world out : Type}
    (pipeline : string -> world -> world * result out)
    (rank : string) (w : world) : world * result out :=
  if bool_decide (lower rank ∉ rank_modes)
  then (w, Raise (Exception (rank ++ " not recognized. Please provide one between `rate` and `growth`.")))
  else pipeline rank w.

(** ** Staged optimizer (lines 66-137) *)

(** What [train] uses of TensorFlow Probability. *)
Class TFP := {
  (** state of the random number generator *)
  rng : Type;
  (** one draw from a normal distribution: [tfd.Normal(...).sample()] *)
  draw : Normal -> rng -> tensor * rng;
  (** log-density of a value under a normal distribution, summed over
      the entries *)
  normal_log_prob : Normal -> tensor -> R;
  (** state of the optimizer (step count and moment estimates) *)
  opt_state : Type;
  (** [tf.optimizers.Adam(learning_rate=...)] *)
  Adam : R -> opt_state;
  (** one update: from the loss as a function of the trainable values and
      their current values to the new values *)
  apply_gradients :
    opt_state -> (list tensor -> result R) -> list tensor -> opt_state * list tensor
}.

(** A TensorFlow value held by a Python name in [train]: an immutable
    constant, or a reference to a mutable variable in the store. *)
Inductive tfval :=
| Const (t : tensor)
| Var (l : nat).

Section Train.
Context `{TFP}.

Record state := {
  store : list tensor;      (* the contents of the [tf.Variable]s *)
  optimizer : opt_state;    (* the one optimizer shared by the four stages *)
  gen : rng
}.

Definition M (A : Type) : Type := state -> result (A * state).

#[local] Instance M_ret : MRet M := fun _ a s => Ok (a, s).
#[local] Instance M_bind : MBind M := fun _ _ f m s =>
  match m s with
  | Ok (a, s') => f a s'
  | Raise e => Raise e
  end.

Definition lift {A} (r : result A) : M A := fun s =>
  match r with
  | Ok a => Ok (a, s)
  | Raise e => Raise e
  end.

(** [v.numpy()]: the current value. *)
Definition read (σ : list tensor) (v : tfval) : tensor :=
  match v with
  | Const t => t
  | Var l => default (T0 0) (σ !! l)
  end.

Definition numpy (s : state) (v : tfval) : tensor := read (store s) v.

(** [tf.Variable(init)] allocates a fresh cell. *)
Definition tf_Variable (init : tensor) : M tfval := fun s =>
  Ok (Var (length (store s)),
      {| store := store s ++ [init]; optimizer := optimizer s; gen := gen s |}).

(** [tf.constant(v)] copies the current value into a constant. *)
Definition tf_constant (v : tfval) : M tfval := fun s => Ok (Const (numpy s v), s).

Definition draw_one (d : Normal) : M tensor := fun s =>
  let '(x, g) := draw d (gen s) in
  Ok (x, {| store := store s; optimizer := optimizer s; gen := g |}).

(** [model.sample()]: the entries are drawn in order, each from the
    distribution its layer gives for the values drawn before. *)
Fixpoint sample_from (m : list layer) (prev : list tensor) : M (list tensor) :=
  match m with
  | [] => mret []
  | l :: m' =>
      d ← lift (apply_layer l prev);
      x ← draw_one d;
      xs ← sample_from m' (x :: prev);
      mret (x :: xs)
  end.

Definition sample (model : list layer) : M (list tensor) := sample_from model [].

(** [model.log_prob(values)] *)
Fixpoint log_prob_from (m : list layer) (prev values : list tensor) : result R :=
  match m, values with
  | [], [] => Ok 0
  | l :: m', x :: values' =>
      d ← apply_layer l prev;
      r ← log_prob_from m' (x :: prev) values';
      Ok (normal_log_prob d x + r)
  | _, _ => Raise ValueError
  end.

Definition log_prob (model : list layer) (values : list tensor) : result R :=
  log_prob_from model [] values.

(** [l[lo:hi][i]] on a Python list. *)
Definition slice_index {A} (l : list A) (lo hi i : nat) : result A :=
  match take (hi - lo) (drop lo l) !! i with
  | Some a => Ok a
  | None => Raise IndexError
  end.

(** [tf.Variable(tf.zeros_like(model.sample()[lo:hi][i]))] *)
Definition new_parameter (model : list layer) (lo hi i : nat) : M tfval :=
  xs ← sample model;
  x ← lift (slice_index xs lo hi i);
  tf_Variable (zeros_like x).

(** The variables a loss reads, which are the ones [tfp.math.minimize]
    trains. *)
Definition trainable (args : list tfval) : list nat :=
  omap (fun v => match v with
                 | Var l => Some l
                 | Const _ => None
                 end) args.

Definition assign (vars : list nat) (vals : list tensor) (σ : list tensor)
  : list tensor :=
  foldr (fun lv σ' => <[fst lv := snd lv]> σ') σ (zip vars vals).

(** The loss [lambda: -model.log_prob(args + [data])], as a function of
    the store. *)
Definition neg_log_prob (model : list layer) (args : list tfval) (data : tensor)
    (σ : list tensor) : result R :=
  Ropp <$> log_prob model (map (read σ) args ++ [data]).

Fixpoint minimize_steps (loss : list tensor -> result R) (vars : list nat)
    (num_steps : nat) : M (list R) :=
  match num_steps with
  | O => mret []
  | S k => fun s =>
      match loss (store s) with
      | Raise e => Raise e
      | Ok v =>
          let '(o, new) :=
            apply_gradients (optimizer s)
              (fun vals => loss (assign vars vals (store s)))
              (map (fun l => default (T0 0) (store s !! l)) vars) in
          let s' := {| store := assign vars new (store s);
                       optimizer := o; gen := gen s |} in
          match minimize_steps loss vars k s' with
          | Raise e => Raise e
          | Ok (trace, s'') => Ok (v :: trace, s'')
          end
      end
  end.

(** [tfp.math.minimize(lambda: -model.log_prob(args + [data]),
    optimizer=optimizer, num_steps=num_steps)]; the result is the trace
    of the losses. *)
Definition minimize (model : list layer) (args : list tfval) (data : tensor)
    (num_steps : Z) : M (list R) :=
  minimize_steps (neg_log_prob model args data) (trainable args) (Z.to_nat num_steps).

(** [m.mean(0)] *)
Definition mean0 (m : list (list R)) : list R :=
  map (fun t => foldr Rplus 0 (column t m) / INR (length m)) (seq 0 (ncols m)).

(** [np.where(np.array(ids) == k)[0]] *)
Definition where_eq (ids : list nat) (k : nat) : list nat :=
  map fst (filter (fun jx => snd jx = k) (zip (seq 0 (length ids)) ids)).

(** [logp[np.where(np.array(ids) == k)[0]].mean(0)] *)
Definition group_mean (logp : list (list R)) (ids : list nat) (k : nat)
  : result (list R) :=
  rows ← mapR (fun j => match logp !! j with
                        | Some r => Ok r
                        | None => Raise IndexError
                        end) (where_eq ids k);
  Ok (mean0 rows).

(** Line 89: [int(np.ceil(num_steps // 4))]. *)
Definition num_steps_l (num_steps : Z) : Z :=
  Qceiling (inject_Z (num_steps / 4)).

(** Lines 92-95. *)
Definition market_stage (logp : list (list R)) (info : info_t) (n : Z)
  : M (tfval * tfval * list R) :=
  model ← lift (define_model info "market");
  phi_m ← new_parameter model 0 2 0;
  psi_m ← new_parameter model 0 2 1;
  loss_m ← minimize model [phi_m; psi_m] (T2 [mean0 logp]) n;
  mret (phi_m, psi_m, loss_m).

(** Lines 97-102. *)
Definition sector_stage (logp : list (list R)) (info : info_t) (n : Z)
    (phi_m psi_m : tfval) : M (tfval * tfval * tfval * tfval * list R) :=
  model ← lift (define_model info "sector");
  phi_m ← tf_constant phi_m;
  psi_m ← tf_constant psi_m;
  phi_s ← new_parameter model 2 4 0;
  psi_s ← new_parameter model 2 4 1;
  logp_s ← lift (mapR (group_mean logp (sectors_id info)) (seq 0 (num_sectors info)));
  loss_s ← minimize model [phi_m; psi_m; phi_s; psi_s] (T2 logp_s) n;
  mret (phi_m, psi_m, phi_s, psi_s, loss_s).

(** Lines 105-110. *)
Definition industry_stage (logp : list (list R)) (info : info_t) (n : Z)
    (phi_m psi_m phi_s psi_s : tfval) : M (tfval * tfval * tfval * tfval * list R) :=
  model ← lift (define_model info "industry");
  phi_s ← tf_constant phi_s;
  psi_s ← tf_constant psi_s;
  phi_i ← new_parameter model 4 6 0;
  psi_i ← new_parameter model 4 6 1;
  logp_i ← lift (mapR (group_mean logp (industries_id info)) (seq 0 (num_industries info)));
  loss_i ← minimize model [phi_m; psi_m; phi_s; psi_s; phi_i; psi_i] (T2 logp_i) n;
  mret (phi_s, psi_s, phi_i, psi_i, loss_i).

(** Lines 112-116. *)
Definition stock_stage (logp : list (list R)) (info : info_t) (n : Z)
    (phi_m psi_m phi_s psi_s phi_i psi_i : tfval)
  : M (tfval * tfval * tfval * tfval * list R) :=
  model ← lift (define_model info "stock");
  phi_i ← tf_constant phi_i;
  psi_i ← tf_constant psi_i;
  phi ← new_parameter model 6 8 0;
  psi ← new_parameter model 6 8 1;
  loss ← minimize model [phi_m; psi_m; phi_s; psi_s; phi_i; psi_i; phi; psi] (T2 logp) n;
  mret (phi_i, psi_i, phi, psi, loss).

(** The tuple returned at line 137. *)
Record trained := {
  phi_m : tfval; psi_m : tfval;
  phi_s : tfval; psi_s : tfval;
  phi_i : tfval; psi_i : tfval;
  phi : tfval; psi : tfval
}.

(** The four loss traces, which [train] only plots. *)
Record losses := {
  loss_m : list R; loss_s : list R; loss_i : list R; loss : list R
}.

Definition train_with_losses (logp : list (list R)) (info : info_t)
    (learning_rate : R) (num_steps : Z) (σ : list tensor) (g : rng)
  : result (trained * losses * state) :=
  let optimizer := Adam learning_rate in
  let num_steps_l := num_steps_l num_steps in
  (* market *)
  '(phi_m, psi_m, loss_m, s1) ←
     market_stage logp info num_steps_l
       {| store := σ; optimizer := optimizer; gen := g |};
  (* sector *)
  '(phi_m, psi_m, phi_s, psi_s, loss_s, s2) ←
     sector_stage logp info num_steps_l phi_m psi_m s1;
  (* industry *)
  '(phi_s, psi_s, phi_i, psi_i, loss_i, s3) ←
     industry_stage logp info num_steps_l phi_m psi_m phi_s psi_s s2;
  (* stock *)
  '(phi_i, psi_i, phi, psi, loss, s4) ←
     stock_stage logp info num_steps_l phi_m psi_m phi_s psi_s phi_i psi_i s3;
  Ok ({| phi_m := phi_m; psi_m := psi_m; phi_s := phi_s; psi_s := psi_s;
         phi_i := phi_i; psi_i := psi_i; phi := phi; psi := psi |},
      {| loss_m := loss_m; loss_s := loss_s; loss_i := loss_i; loss := loss |},
      s4).

Definition train (logp : list (list R)) (info : info_t)
    (learning_rate : R) (num_steps : Z) (σ : list tensor) (g : rng)
  : result (trained * state) :=
  '(r, _, s) ← train_with_losses logp info learning_rate num_steps σ g;
  Ok (r, s).

End Train.

(** ** Vocabulary of the statements *)

(** A rectangular array with [rows] rows and [cols] columns. *)
Definition is_matrix (m : list (list R)) (rows cols : nat) : Prop :=
  length m = rows /\ Forall (fun r => length r = cols) m.

(** Entry [m[i, j]] of a rank-2 array. *)
Definition entry (m : list (list R)) (i j : nat) : R := nth j (nth i m []) 0.

(** The sum of [f 0], ..., [f (n - 1)]. *)
Definition big_sum (f : nat -> R) (n : nat) : R := foldr Rplus 0 (map f (seq 0 n)).

(** A threshold is a boundary between two bins, with the threshold
    itself on the lower side: a score equal to it is rated differently
    from every score above it. *)
Definition threshold_is_boundary (t : Q) : Prop :=
  forall q : Q, (t < q)%Q -> rate [Finite q] None <> rate [Finite t] None.

(** The log-price statistics of entity [i] at time [t]: the matrix
    product of the coefficients with the basis, and the softplus of the
    volatility parameter of the entity, the same for every time step. *)
Definition logprice_formulas (phi psi tt : list (list R)) (N K T : nat) : Prop :=
  exists mean std,
    estimate_logprice_statistics (T2 phi) (T2 psi) (T2 tt) = Ok (T2 mean, T2 std) /\
    is_matrix mean N T /\ is_matrix std N 1 /\
    (forall i t, (i < N)%nat -> (t < T)%nat ->
       entry mean i t = big_sum (fun k => entry phi i k * entry tt k t) K) /\
    (forall i, (i < N)%nat -> entry std i 0 = ln (1 + exp (entry psi i 0))).

(** The moments of the log-normal distribution, entry by entry. *)
Definition price_formulas (mu sigma : list (list R)) (N T : nat) : Prop :=
  exists mean_price std_price,
    estimate_price_statistics (T2 mu) (T2 sigma) = Ok (T2 mean_price, T2 std_price) /\
    is_matrix mean_price N T /\ is_matrix std_price N T /\
    forall i t, (i < N)%nat -> (t < T)%nat ->
      entry mean_price i t = exp (entry mu i t + (entry sigma i 0) ^ 2 / 2) /\
      entry std_price i t =
        sqrt (exp (2 * entry mu i t + (entry sigma i 0) ^ 2)
              * (exp ((entry sigma i 0) ^ 2) - 1)).

(** The same statistics when the volatility parameter is a single
    number, as the market-level [psi] is: it serves every entity and
    every time step. *)
Definition scalar_formulas (phi tt mu : list (list R)) (psi sigma : R)
    (N K T N' T' : nat) : Prop :=
  (exists mean,
      estimate_logprice_statistics (T2 phi) (T0 psi) (T2 tt)
        = Ok (T2 mean, T0 (ln (1 + exp psi))) /\
      is_matrix mean N T /\
      forall i t, (i < N)%nat -> (t < T)%nat ->
        entry mean i t = big_sum (fun k => entry phi i k * entry tt k t) K) /\
  (exists mean_price std_price,
      estimate_price_statistics (T2 mu) (T0 sigma)
        = Ok (T2 mean_price, T2 std_price) /\
      is_matrix mean_price N' T' /\ is_matrix std_price N' T' /\
      forall i t, (i < N')%nat -> (t < T')%nat ->
        entry mean_price i t = exp (entry mu i t + sigma ^ 2 / 2) /\
        entry std_price i t =
          sqrt (exp (2 * entry mu i t + sigma ^ 2) * (exp (sigma ^ 2) - 1))).

(** The mean price dominates the exponential of the mean log-price. *)
Definition price_dominates (phi psi tt : list (list R)) (N T : nat) : Prop :=
  exists mean std mean_price std_price,
    estimate_logprice_statistics (T2 phi) (T2 psi) (T2 tt) = Ok (T2 mean, T2 std) /\
    estimate_price_statistics (T2 mean) (T2 std) = Ok (T2 mean_price, T2 std_price) /\
    forall i t, (i < N)%nat -> (t < T)%nat ->
      entry std i 0 <> 0 /\ entry mean_price i t >= exp (entry mean i t).

(** The score of stock [i]: the forecast at the horizon minus the last
    observation, in units of the standard deviation of the stock. *)
Definition scores_formula (logp_pred logp std : list (list R))
    (horizon N T : nat) : Prop :=
  exists s,
    scores (T2 logp_pred) (T2 logp) (T2 std) horizon = Ok (T1 s) /\
    length s = N /\
    forall i, (i < N)%nat ->
      nth i s 0 = (entry logp_pred i horizon - entry logp i (T - 1)) / entry std i 0.

(** The sign convention as the specification words it: a positive score
    means that the predicted price is below the current price. *)
Definition positive_score_means_predicted_below
    (logp_pred logp std : list (list R)) (horizon : nat) : Prop :=
  forall s i,
    scores (T2 logp_pred) (T2 logp) (T2 std) horizon = Ok (T1 s) ->
    (i < length s)%nat -> 0 < nth i s 0 ->
    exp (entry logp_pred i horizon) < exp (entry logp i (ncols logp - 1)).

(** The sign convention of the program: a positive score means that the
    predicted log-price, hence the predicted price, is above the last
    observed one. *)
Definition positive_score_means_predicted_above
    (logp_pred logp std : list (list R)) (horizon : nat) : Prop :=
  forall s i,
    scores (T2 logp_pred) (T2 logp) (T2 std) horizon = Ok (T1 s) ->
    (i < length s)%nat -> 0 < nth i s 0 ->
    entry logp i (ncols logp - 1) < entry logp_pred i horizon /\
    exp (entry logp i (ncols logp - 1)) < exp (entry logp_pred i horizon).

(** The forecast basis as the specification words it: one column for
    each of the future offsets [T+1], ..., [T+horizon]. *)
Definition tt_pred_as_specified (t horizon order : nat) : tensor :=
  T2 (map (fun k => map (fun h => ((INR t + INR h) / INR t) ^ k) (seq 1 horizon))
          (seq 0 (order + 1))).

(** The historical basis: [order + 1] rows and [t] columns, row [k]
    holding the [k]-th powers of [1/t], [2/t], ..., [t/t]. *)
Definition time_basis_formula (t order : nat) : Prop :=
  exists m,
    time_basis t order = Ok (T2 m) /\ is_matrix m (order + 1) t /\
    forall k j, (k <= order)%nat -> (j < t)%nat ->
      entry m k j = (INR (j + 1) / INR t) ^ k.

(** The forecast basis of the program: [order + 1] rows and
    [horizon + 1] columns, for the offsets [T+0], ..., [T+horizon]. *)
Definition tt_pred_formula (t horizon order : nat) : Prop :=
  exists m,
    tt_pred t horizon order = T2 m /\ is_matrix m (order + 1) (horizon + 1) /\
    forall k h, (k <= order)%nat -> (h <= horizon)%nat ->
      entry m k h = ((INR t + INR h) / INR t) ^ k.

(** The hierarchy is consistent: the sector recorded for a stock is the
    sector that owns the industry of the stock. *)
Definition hierarchy_consistent (info : info_t) : Prop :=
  forall j ind, industries_id info !! j = Some ind ->
    exists sec, sector_industries_id info !! ind = Some sec /\
                sectors_id info !! j = Some sec.

(** In the stock-level model, the location of the prior of the
    stock-level coefficients is the industry-level array gathered by
    [industries_id], and the location of the prior of the industry-level
    coefficients is the sector-level array gathered by
    [sector_industries_id]; for every stock the latter, taken at the
    industry of the stock, is the row of the recorded sector of the
    stock. *)
Definition gather_propagation (info : info_t)
    (phi_s psi_s phi_i psi_i : list (list R)) (rest : list tensor) : Prop :=
  exists m layer_i layer d_i d loc_i loc_stock,
    define_model info "stock" = Ok m /\
    m !! 4%nat = Some layer_i /\ m !! 6%nat = Some layer /\
    apply_layer layer_i (T2 psi_s :: T2 phi_s :: rest) = Ok d_i /\
    loc d_i = T2 loc_i /\
    apply_layer layer (T2 psi_i :: T2 phi_i :: T2 psi_s :: T2 phi_s :: rest) = Ok d /\
    loc d = T2 loc_stock /\
    length loc_i = length (sector_industries_id info) /\
    length loc_stock = length (industries_id info) /\
    forall j ind sec,
      industries_id info !! j = Some ind -> sectors_id info !! j = Some sec ->
      loc_stock !! j = phi_i !! ind /\ loc_i !! ind = phi_s !! sec.

(** What one stage does to the store, from the state [s] in which its
    two parameters are created to the state [s'] in which its
    optimization ends: the parameters are two fresh variables, the
    variables that existed before keep their values, and the trace has
    one loss per requested step. *)
Definition stage_effect `{TFP} (s s' : state) (v w : tfval)
    (trace : list R) (n : Z) : Prop :=
  v = Var (length (store s)) /\
  w = Var (S (length (store s))) /\
  length (store s') = (length (store s) + 2)%nat /\
  (forall l, (l < length (store s))%nat -> store s' !! l = store s !! l) /\
  length trace = Z.to_nat n.

(** The run of [train] that ends in state [sf] with the tuple [r], cut
    at the end of each stage ([s1], [s2], [s3], [sf]).  [vm], [wm] are
    the variables trained in the market stage, [vs], [ws] those of the
    sector stage, [vi], [wi] those of the industry stage.  Every
    parameter, read when a later stage has ended, has the value it had
    when its own stage ended, and that value is what the returned tuple
    holds, as a constant. *)
Definition staged_freeze `{TFP} (logp : list (list R)) (info : info_t)
    (learning_rate : R) (num_steps : Z) (σ : list tensor) (g : rng)
    (r : trained) (sf : state) : Prop :=
  let n := num_steps_l num_steps in
  exists vm wm lm s1 cm dm vs ws ls s2 cs ds vi wi li s3 ci di l,
    market_stage logp info n
      {| store := σ; optimizer := Adam learning_rate; gen := g |}
      = Ok (vm, wm, lm, s1) /\
    sector_stage logp info n vm wm s1 = Ok (cm, dm, vs, ws, ls, s2) /\
    industry_stage logp info n cm dm vs ws s2 = Ok (cs, ds, vi, wi, li, s3) /\
    stock_stage logp info n cm dm cs ds vi wi s3 = Ok (ci, di, phi r, psi r, l, sf) /\
    (* market level *)
    (numpy s2 vm = numpy s1 vm /\ numpy s3 vm = numpy s1 vm /\
     numpy sf vm = numpy s1 vm) /\
    (numpy s2 wm = numpy s1 wm /\ numpy s3 wm = numpy s1 wm /\
     numpy sf wm = numpy s1 wm) /\
    phi_m r = Const (numpy s1 vm) /\ psi_m r = Const (numpy s1 wm) /\
    (* sector level *)
    (numpy s3 vs = numpy s2 vs /\ numpy sf vs = numpy s2 vs) /\
    (numpy s3 ws = numpy s2 ws /\ numpy sf ws = numpy s2 ws) /\
    phi_s r = Const (numpy s2 vs) /\ psi_s r = Const (numpy s2 ws) /\
    (* industry level *)
    numpy sf vi = numpy s3 vi /\ numpy sf wi = numpy s3 wi /\
    phi_i r = Const (numpy s3 vi) /\ psi_i r = Const (numpy s3 wi).

(** The number of iterations of one stage as the specification words
    it: the ceiling of a quarter of the budget. *)
Definition steps_per_stage_as_specified (num_steps : Z) : Z :=
  Qceiling (num_steps # 4).

(** ** A small instance

    Two stocks in one industry of one sector, two observed time steps
    and a polynomial of order one. *)
Definition example_info : info_t := {|
  tt := T2 [[1; 1]; [1 / 2; 1]];
  order_scale := T2 [[1; 1 / 2]];
  num_sectors := 1;
  num_industries := 1;
  sector_industries_id := [0%nat];
  industries_id := [0%nat; 0%nat];
  sectors_id := [0%nat; 0%nat]
|}.

Definition example_logp : list (list R) := [[0; 1]; [2; 3]].

(** A stand-in for TensorFlow Probability on which [train] can be run:
    a draw returns the location shifted by the scale (so it has the
    shape of a sample), the density is constant, and one update of the
    optimizer counts the step and moves every trainable value by one. *)
Definition example_TFP : TFP := {|
  rng := unit;
  draw := fun d g =>
    (match bop Rplus (loc d) (scale d) with
     | Ok x => x
     | Raise _ => T0 0
     end, g);
  normal_log_prob := fun _ _ => 0;
  opt_state := nat;
  Adam := fun _ => 0%nat;
  apply_gradients := fun o _ vals => (S o, map (tmap (Rplus 1)) vals)
|}.

(** ** Growth (line 291) *)

(** [x[:, j:]] *)
Definition slice_cols_from (x : tensor) (j : nat) : result tensor :=
  match x with
  | T2 m => Ok (T2 (map (drop j) m))
  | _ => Raise IndexError
  end.

(** [np.arange(lo, hi)] *)
Definition arange (lo hi : nat) : list R := map INR (seq lo (hi - lo)).

Definition growth (phi : tensor) (order t : nat) : result tensor :=
  sl ← slice_cols_from phi 1;
  d ← np_dot sl (T1 (arange 1 (order + 1)));
  Ok (tmap (fun x => x / INR t) d).

(** ** Uncertainty bands and ranking (in [__main__]) *)

(** Lines 337-338 (and 358-359, 388-389, 426-427): the band of two
    standard deviations around the estimated price, cut at zero below. *)
Definition band (p_est std_p_est : tensor) : result (tensor * tensor) :=
  left ← bop Rminus p_est (tmap (Rmult 2) std_p_est);
  right ← bop Rplus p_est (tmap (Rmult 2) std_p_est);
  Ok (tmap (Rmax 0) left, right).

(** Line 312; [argsort] stands for [np.argsort]. *)
Definition rank_order (argsort : list R -> list nat) (rank : string)
    (scores growth : list R) : list nat :=
  if decide (rank = "rate"%string) then rev (argsort scores)
  else rev (argsort growth).

(** ** Further vocabulary *)

(** The position of a label in the order of the [if]/[elif] chain, from
    HIGHLY BELOW TREND (0) to HIGHLY ABOVE TREND (4). *)
Definition label_index (l : string) : nat :=
  if decide (l = HIGHLY_BELOW) then 0
  else if decide (l = BELOW) then 1
  else if decide (l = ALONG) then 2
  else if decide (l = ABOVE) then 3
  else 4.

(** The four keys that the [if]/[elif] chain can look up. *)
Definition consulted_keys : list string := [HIGHLY_BELOW; BELOW; ALONG; ABOVE].

(** The dictionary [rate] works with: the argument, or the defaults. *)
Definition thresholds_of (o : option (gmap string np_float)) : gmap string np_float :=
  match o with
  | None => default_thresholds
  | Some d => d
  end.

(** A property of every entry of an array. *)
Definition tensor_Forall (P : R -> Prop) (a : tensor) : Prop :=
  match a with
  | T0 x => P x
  | T1 v => Forall P v
  | T2 m => Forall (Forall P) m
  end.

(** The trend of a stock with coefficients [c] over [t] observed time
    steps, at the (real) time [tau]: the polynomial in [tau / t]. *)
Definition trend (c : list R) (t : nat) (tau : R) : R :=
  big_sum (fun k => nth k c 0 * (tau / INR t) ^ k) (length c).

(** * Properties *)

(** ** Rating *)

Lemma default_lookups :
  getitem default_thresholds HIGHLY_BELOW = Ok (Finite 3) /\
  getitem default_thresholds BELOW = Ok (Finite 2) /\
  getitem default_thresholds ALONG = Ok (Finite 0) /\
  getitem default_thresholds ABOVE = Ok (Finite (-2)) /\
  getitem default_thresholds HIGHLY_ABOVE = Ok (Finite (-3)).
Proof. repeat split; vm_compute; reflexivity. Qed.

Lemma rate_one_default_finite (q : Q) :
  rate_one default_thresholds (Finite q) = Ok (default_bin q).
Proof.
  destruct default_lookups as (H1 & H2 & H3 & H4 & _).
  unfold rate_one, default_bin.
  rewrite H1, H2, H3, H4. cbn [mbind result_bind gt].
  destruct (Qlt_bool 3 q); [reflexivity|].
  destruct (Qlt_bool 2 q); [reflexivity|].
  destruct (Qlt_bool 0 q); [reflexivity|].
  destruct (Qlt_bool (-2) q); reflexivity.
Qed.

Lemma rate_one_default_total (s : np_float) :
  exists r, rate_one default_thresholds s = Ok r.
Proof.
  destruct default_lookups as (H1 & H2 & H3 & H4 & _).
  unfold rate_one. rewrite H1, H2, H3, H4. cbn [mbind result_bind].
  repeat (match goal with
          | |- context [if ?b then _ else _] => destruct b
          end; [eexists; reflexivity|]).
  eexists; reflexivity.
Qed.

Lemma rate_loop_pointwise thresholds (f : np_float -> string) scores :
  (forall s, s ∈ scores -> rate_one thresholds s = Ok (f s)) ->
  forall rates, rate_loop thresholds scores rates = Ok (rates ++ map f scores).
Proof.
  induction scores as [|s rest IH]; intros Hf rates; cbn [rate_loop map].
  - by rewrite app_nil_r.
  - rewrite Hf by apply list_elem_of_here. cbn [mbind result_bind].
    rewrite IH by (intros; apply Hf, list_elem_of_further; assumption).
    by rewrite <- app_assoc.
Qed.

Lemma rate_loop_ext t1 t2 scores :
  (forall s, rate_one t1 s = rate_one t2 s) ->
  forall rates, rate_loop t1 scores rates = rate_loop t2 scores rates.
Proof.
  intros Hone. induction scores as [|s rest IH]; intros rates; cbn [rate_loop].
  - reflexivity.
  - rewrite Hone. destruct (rate_one t2 s); cbn [mbind result_bind]; auto.
Qed.

Lemma rate_loop_length thresholds scores : forall rates out,
  rate_loop thresholds scores rates = Ok out ->
  length out = (length rates + length scores)%nat.
Proof.
  induction scores as [|s rest IH]; intros rates out; cbn [rate_loop].
  - intros [= <-]. cbn. lia.
  - destruct (rate_one thresholds s); cbn [mbind result_bind]; [|discriminate].
    intros Hout. apply IH in Hout. rewrite length_app in Hout. cbn in *. lia.
Qed.

Lemma rate_loop_default_total scores : forall rates,
  exists out, rate_loop default_thresholds scores rates = Ok out.
Proof.
  induction scores as [|s rest IH]; intros rates; cbn [rate_loop].
  - eexists; reflexivity.
  - destruct (rate_one_default_total s) as [r ->]. cbn [mbind result_bind]. apply IH.
Qed.

Lemma Qlt_bool_true (x y : Q) : Qlt_bool x y = true <-> (x < y)%Q.
Proof. apply Qlt_bool_iff. Qed.

Lemma Qlt_bool_false (x y : Q) : Qlt_bool x y = false <-> (y <= x)%Q.
Proof.
  rewrite <- not_true_iff_false, Qlt_bool_iff. split.
  - apply Qnot_lt_le.
  - apply Qle_not_lt.
Qed.

Lemma rate_default_bins_aux (q : Q) :
  (default_bin q = HIGHLY_BELOW <-> (3 < q)%Q) /\
  (default_bin q = BELOW <-> (2 < q /\ q <= 3)%Q) /\
  (default_bin q = ALONG <-> (0 < q /\ q <= 2)%Q) /\
  (default_bin q = ABOVE <-> (-2 < q /\ q <= 0)%Q) /\
  (default_bin q = HIGHLY_ABOVE <-> (q <= -2)%Q).
Proof.
  unfold default_bin.
  destruct (Qlt_bool 3 q) eqn:E3;
    [apply Qlt_bool_true in E3|apply Qlt_bool_false in E3];
  (destruct (Qlt_bool 2 q) eqn:E2;
    [apply Qlt_bool_true in E2|apply Qlt_bool_false in E2]);
  (destruct (Qlt_bool 0 q) eqn:E0;
    [apply Qlt_bool_true in E0|apply Qlt_bool_false in E0]);
  (destruct (Qlt_bool (-2) q) eqn:Em;
    [apply Qlt_bool_true in Em|apply Qlt_bool_false in Em]);
  repeat split; intros; try discriminate; try reflexivity; try assumption;
    try (exfalso; lra); try lra.
Qed.

Lemma rate_singleton_default (q : Q) :
  rate [Finite q] None = Ok [default_bin q].
Proof.
  unfold rate. cbn [rate_loop]. rewrite rate_one_default_finite. reflexivity.
Qed.

Lemma consulted_thresholds_are_boundaries :
  threshold_is_boundary 3 /\ threshold_is_boundary 2 /\
  threshold_is_boundary 0 /\ threshold_is_boundary (-2).
Proof.
  unfold threshold_is_boundary.
  repeat split; intros q Hq; rewrite !rate_singleton_default;
    intros [= Hbin]; destruct (rate_default_bins_aux q) as (_ & HB & HAL & HAB & HHA).
  - apply HB in Hbin. lra.
  - apply HAL in Hbin. lra.
  - apply HAB in Hbin. lra.
  - apply HHA in Hbin. lra.
Qed.

(** C4 (as amended).  With the default thresholds [rate] never fails:
    it returns one label per score, for finite and non-finite scores
    alike.  A finite score gets the label of its bin, the five bins being
    cut at 3, 2, 0 and -2 by strict comparisons taken from the highest
    threshold down: above 3 HIGHLY BELOW TREND, in (2, 3] BELOW TREND, in
    (0, 2] ALONG TREND, in (-2, 0] ABOVE TREND, and otherwise HIGHLY
    ABOVE TREND.  Each of these four thresholds is a boundary, a score
    equal to it getting the next lower label.  The defaults map the five
    labels to 3, 2, 0, -2 and -3, and the four sample scores 3.5, 2.5, 0
    and -2.5 are rated as listed. *)
Theorem rate_default_bins :
  (forall scores : list np_float,
      exists rates, rate scores None = Ok rates /\ length rates = length scores) /\
  (forall scores : list Q,
      rate (map Finite scores) None = Ok (map default_bin scores)) /\
  (forall q : Q,
      (default_bin q = HIGHLY_BELOW <-> (3 < q)%Q) /\
      (default_bin q = BELOW <-> (2 < q /\ q <= 3)%Q) /\
      (default_bin q = ALONG <-> (0 < q /\ q <= 2)%Q) /\
      (default_bin q = ABOVE <-> (-2 < q /\ q <= 0)%Q) /\
      (default_bin q = HIGHLY_ABOVE <-> (q <= -2)%Q)) /\
  (default_thresholds !! HIGHLY_BELOW = Some (Finite 3) /\
   default_thresholds !! BELOW = Some (Finite 2) /\
   default_thresholds !! ALONG = Some (Finite 0) /\
   default_thresholds !! ABOVE = Some (Finite (-2)) /\
   default_thresholds !! HIGHLY_ABOVE = Some (Finite (-3)) /\
   size default_thresholds = 5%nat) /\
  (threshold_is_boundary 3 /\ threshold_is_boundary 2 /\
   threshold_is_boundary 0 /\ threshold_is_boundary (-2)) /\
  (rate [Finite 3] None = Ok [BELOW] /\
   rate [Finite 2] None = Ok [ALONG] /\
   rate [Finite 0] None = Ok [ABOVE] /\
   rate [Finite (-2)] None = Ok [HIGHLY_ABOVE]) /\
  (rate [Finite 3.5] None = Ok [HIGHLY_BELOW] /\
   rate [Finite 2.5] None = Ok [BELOW] /\
   rate [Finite 0] None = Ok [ABOVE] /\
   rate [Finite (-2.5)] None = Ok [HIGHLY_ABOVE]).
Proof.
  split; [|split; [|split; [|split; [|split; [|split]]]]].
  - intros scores. unfold rate.
    destruct (rate_loop_default_total scores []) as [out Hout].
    exists out. split; [exact Hout|]. by apply rate_loop_length in Hout.
  - intros scores. unfold rate.
    rewrite (rate_loop_pointwise default_thresholds
               (fun s => match s with Finite q => default_bin q | _ => HIGHLY_ABOVE end)).
    + by rewrite map_map.
    + intros s [q [-> _]]%list_elem_of_fmap. apply rate_one_default_finite.
  - apply rate_default_bins_aux.
  - repeat split; vm_compute; reflexivity.
  - apply consulted_thresholds_are_boundaries.
  - repeat split; vm_compute; reflexivity.
  - repeat split; vm_compute; reflexivity.
Qed.

(** C4 (as stated).  The fifth default threshold is not a boundary: the
    score -3, equal to it, and the score -2.5, above it, are both rated
    HIGHLY ABOVE TREND. *)
Lemma lowest_threshold_not_a_boundary :
  ~ threshold_is_boundary (-3).
Proof.
  intros Hboundary. apply (Hboundary (-2.5)%Q).
  - lra.
  - vm_compute. reflexivity.
Qed.

Lemma getitem_insert_ne thresholds k k' v :
  k <> k' -> getitem (<[k := v]> thresholds) k' = getitem thresholds k'.
Proof. intros Hne. unfold getitem. by rewrite lookup_insert_ne. Qed.

Lemma getitem_delete_ne thresholds k k' :
  k <> k' -> getitem (delete k thresholds) k' = getitem thresholds k'.
Proof. intros Hne. unfold getitem. by rewrite lookup_delete_ne. Qed.

Lemma rate_one_insert_highly_above thresholds v s :
  rate_one (<[HIGHLY_ABOVE := v]> thresholds) s = rate_one thresholds s.
Proof.
  unfold rate_one. rewrite !getitem_insert_ne by discriminate. reflexivity.
Qed.

Lemma rate_one_delete_highly_above thresholds s :
  rate_one (delete HIGHLY_ABOVE thresholds) s = rate_one thresholds s.
Proof.
  unfold rate_one. rewrite !getitem_delete_ne by discriminate. reflexivity.
Qed.

(** C10. [rate] never looks up the threshold of HIGHLY ABOVE TREND: for
    every dictionary of thresholds and every array of scores, giving that
    key another value, or removing it, leaves the result unchanged; in
    particular any replacement of the default value -3 yields the result
    of the defaults.  With the defaults a finite score is rated HIGHLY
    ABOVE TREND exactly when it is at most -2, the threshold of ABOVE
    TREND. *)
Theorem rate_ignores_highly_above_threshold :
  (forall thresholds v scores,
      rate scores (Some (<[HIGHLY_ABOVE := v]> thresholds)) =
      rate scores (Some thresholds)) /\
  (forall thresholds scores,
      rate scores (Some (delete HIGHLY_ABOVE thresholds)) =
      rate scores (Some thresholds)) /\
  (forall v scores,
      rate scores (Some (<[HIGHLY_ABOVE := v]> default_thresholds)) =
      rate scores None) /\
  (forall q : Q,
      rate [Finite q] None = Ok [HIGHLY_ABOVE] <-> (q <= -2)%Q).
Proof.
  repeat split.
  - intros. unfold rate. apply rate_loop_ext. intros s. apply rate_one_insert_highly_above.
  - intros. unfold rate. apply rate_loop_ext. intros s. apply rate_one_delete_highly_above.
  - intros. unfold rate. apply rate_loop_ext. intros s. apply rate_one_insert_highly_above.
  - unfold rate. cbn [rate_loop]. rewrite rate_one_default_finite.
    cbn [mbind result_bind app]. intros [= Hbin].
    destruct rate_default_bins_aux with (q := q) as (_ & _ & _ & _ & Hha).
    by apply Hha.
  - intros Hq. unfold rate. cbn [rate_loop]. rewrite rate_one_default_finite.
    cbn [mbind result_bind app].
    destruct rate_default_bins_aux with (q := q) as (_ & _ & _ & _ & Hha).
    by rewrite (proj2 Hha Hq).
Qed.

(** ** Arrays: shapes and entries *)

Lemma nth_map_lt {A B} (f : A -> B) (l : list A) (i : nat) (d : A) (d' : B) :
  (i < length l)%nat -> nth i (map f l) d' = f (nth i l d).
Proof.
  intros Hi. rewrite (nth_indep _ d' (f d)) by (rewrite length_map; exact Hi).
  apply map_nth.
Qed.

Lemma is_matrix_row m rows cols i :
  is_matrix m rows cols -> (i < rows)%nat -> length (nth i m []) = cols.
Proof.
  intros [Hlen Hrows] Hi. rewrite List.Forall_forall in Hrows.
  apply Hrows, nth_In. lia.
Qed.

Lemma mapR_total {A B} (f : A -> result B) (g : A -> B) (l : list A) :
  (forall x, In x l -> f x = Ok (g x)) -> mapR f l = Ok (map g l).
Proof.
  induction l as [|x l IH]; intros Hf; cbn [mapR map].
  - reflexivity.
  - rewrite Hf by (left; reflexivity). cbn [mbind result_bind].
    rewrite IH by (intros y Hy; apply Hf; right; exact Hy). reflexivity.
Qed.

Lemma big_sum_S (f : nat -> R) (n : nat) :
  big_sum f (S n) = f 0%nat + big_sum (fun k => f (S k)) n.
Proof.
  unfold big_sum. cbn [seq map foldr]. by rewrite <- seq_shift, map_map.
Qed.

Lemma inner_big_sum (u v : list R) :
  length u = length v ->
  inner u v = big_sum (fun k => nth k u 0 * nth k v 0) (length u).
Proof.
  revert v. induction u as [|x u IH]; intros [|y v] Hlen; try discriminate.
  - reflexivity.
  - cbn [length]. rewrite big_sum_S. unfold inner in *. cbn [zip_with foldr nth].
    f_equal. apply IH. by injection Hlen.
Qed.

Lemma column_nth (b : list (list R)) (t k : nat) :
  (k < length b)%nat -> nth k (column t b) 0 = entry b k t.
Proof.
  intros Hk. unfold column, entry.
  exact (nth_map_lt (fun r => nth t r 0) b k [] 0 Hk).
Qed.

Lemma forallb_row_lengths (a : list (list R)) (n : nat) :
  Forall (fun r => length r = n) a ->
  forallb (fun r => Nat.eqb (length r) n) a = true.
Proof.
  intros Ha. apply forallb_forall. intros r Hr. rewrite List.Forall_forall in Ha.
  apply Nat.eqb_eq, Ha, Hr.
Qed.

Lemma ncols_matrix (b : list (list R)) (K T : nat) :
  is_matrix b K T -> (0 < K)%nat -> ncols b = T.
Proof.
  intros [Hlen Hrows] HK. destruct b as [|r b]; cbn in *; [lia|].
  by inversion Hrows.
Qed.

Lemma big_sum_ext (f g : nat -> R) (n : nat) :
  (forall k, (k < n)%nat -> f k = g k) -> big_sum f n = big_sum g n.
Proof.
  intros Hfg. unfold big_sum. f_equal. apply map_ext_in.
  intros k Hk. apply in_seq in Hk. apply Hfg. lia.
Qed.

(** The product of an [N x K] by a [K x T] array. *)
Lemma matmul_spec (a b : list (list R)) (N K T : nat) :
  is_matrix a N K -> is_matrix b K T -> (0 < K)%nat ->
  exists c, matmul a b = Ok c /\ is_matrix c N T /\
    forall i t, (i < N)%nat -> (t < T)%nat ->
      entry c i t = big_sum (fun k => entry a i k * entry b k t) K.
Proof.
  intros Ha Hb HK. pose proof Ha as [HaN HaK]. pose proof Hb as [HbK HbT].
  unfold matmul. rewrite forallb_row_lengths by (rewrite HbK; exact HaK).
  rewrite (ncols_matrix b K T Hb HK).
  eexists. split; [reflexivity|]. split.
  - split; [by rewrite length_map|].
    apply List.Forall_map, List.Forall_forall. intros r _. cbn. by rewrite length_map, length_seq.
  - intros i t Hi Ht. unfold entry at 1.
    rewrite (nth_map_lt _ a i [] []) by lia.
    rewrite (nth_map_lt _ _ t 0%nat 0) by (rewrite length_seq; exact Ht).
    rewrite seq_nth by exact Ht. cbn [Nat.add].
    assert (length (nth i a []) = K) as HrK by (eapply is_matrix_row; eauto).
    rewrite inner_big_sum by (unfold column; rewrite length_map; lia).
    rewrite HrK. apply big_sum_ext. intros k Hk.
    rewrite column_nth by lia. reflexivity.
Qed.

Lemma brow_column (f : R -> R -> R) (u : list R) (y : R) :
  brow f u [y] = Ok (map (fun x => f x y) u).
Proof.
  unfold brow. case_decide as Hlen.
  - destruct u as [|x [|x' u]]; try discriminate. reflexivity.
  - destruct u as [|x [|x' u]]; reflexivity.
Qed.

(** Broadcasting an [N x 1] column against an [N x T] array. *)
Lemma bmat_column (f : R -> R -> R) (a b : list (list R)) (N T : nat) :
  is_matrix a N T -> is_matrix b N 1 ->
  exists c, bmat f a b = Ok c /\ is_matrix c N T /\
    forall i t, (i < N)%nat -> (t < T)%nat ->
      entry c i t = f (entry a i t) (entry b i 0).
Proof.
  intros [HaN HaT] [HbN Hb1]. unfold bmat.
  rewrite decide_True by lia.
  exists (map (fun uv => map (fun x => f x (nth 0 (snd uv) 0)) (fst uv)) (zip a b)).
  split; [|split].
  - apply mapR_total. intros [u v] Huv. cbn [fst snd].
    apply in_combine_r in Huv. rewrite List.Forall_forall in Hb1.
    specialize (Hb1 v Huv). destruct v as [|y [|y' v]]; try discriminate.
    apply brow_column.
  - split.
    + rewrite length_map, length_zip. lia.
    + apply List.Forall_map, List.Forall_forall. intros [u v] Huv. cbn [fst].
      rewrite length_map. apply in_combine_l in Huv.
      rewrite List.Forall_forall in HaT. by apply HaT.
  - intros i t Hi Ht. unfold entry.
    rewrite (nth_map_lt _ (zip a b) i ([], []) [])
      by (rewrite length_zip; lia).
    change (zip a b) with (combine a b).
    rewrite (combine_nth a b i [] []) by lia. cbn [fst snd].
    assert (length (nth i a []) = T) as Hrow.
    { rewrite List.Forall_forall in HaT. apply HaT, nth_In. lia. }
    exact (nth_map_lt (fun x => f x (nth 0 (nth i b []) 0)) (nth i a []) t 0 0
             ltac:(lia)).
Qed.

Lemma is_matrix_map (f : R -> R) (m : list (list R)) (N T : nat) :
  is_matrix m N T -> is_matrix (map (map f) m) N T.
Proof.
  intros [HN HT]. split; [by rewrite length_map|].
  apply List.Forall_map. eapply Forall_impl; [exact HT|].
  intros r Hr. cbn. by rewrite length_map.
Qed.

Lemma entry_map (f : R -> R) (m : list (list R)) (N T i j : nat) :
  is_matrix m N T -> (i < N)%nat -> (j < T)%nat ->
  entry (map (map f) m) i j = f (entry m i j).
Proof.
  intros Hm Hi Hj. pose proof (is_matrix_row m N T i Hm Hi) as Hrow.
  destruct Hm as [HN _]. unfold entry.
  rewrite (nth_map_lt (map f) m i [] []) by lia.
  exact (nth_map_lt f (nth i m []) j 0 0 ltac:(lia)).
Qed.

Lemma bop_column (f : R -> R -> R) (a b : list (list R)) (N T : nat) :
  is_matrix a N T -> is_matrix b N 1 ->
  exists c, bop f (T2 a) (T2 b) = Ok (T2 c) /\ is_matrix c N T /\
    forall i t, (i < N)%nat -> (t < T)%nat ->
      entry c i t = f (entry a i t) (entry b i 0).
Proof.
  intros Ha Hb. destruct (bmat_column f a b N T Ha Hb) as (c & Hc & Hshape & Hentry).
  exists c. cbn [bop]. rewrite Hc. auto.
Qed.

(** Lines 150-167 on a parameter array [phi] ([N x K]), a volatility
    column [psi] ([N x 1]) and a time basis ([K x T]). *)
Lemma estimate_logprice_statistics_spec (phi psi tt : list (list R)) (N K T : nat) :
  is_matrix phi N K -> is_matrix psi N 1 -> is_matrix tt K T -> (0 < K)%nat ->
  logprice_formulas phi psi tt N K T.
Proof.
  intros Hphi Hpsi Htt HK. unfold logprice_formulas.
  destruct (matmul_spec phi tt N K T Hphi Htt HK) as (mean & Hmm & Hshape & Hentry).
  exists mean, (map (map ln) (map (map (Rplus 1)) (map (map exp) psi))).
  split; [|split; [|split; [|split]]].
  - unfold estimate_logprice_statistics. cbn [np_dot]. rewrite Hmm. reflexivity.
  - exact Hshape.
  - by do 3 apply is_matrix_map.
  - exact Hentry.
  - intros i Hi.
    rewrite (entry_map ln _ N 1) by (try lia; by do 2 apply is_matrix_map).
    rewrite (entry_map (Rplus 1) _ N 1) by (try lia; by apply is_matrix_map).
    rewrite (entry_map exp _ N 1) by (try lia; assumption).
    reflexivity.
Qed.

(** Lines 169-184 on a mean array [mu] ([N x T]) and a deviation column
    [sigma] ([N x 1]): the column is stretched along the time axis. *)
Lemma estimate_price_statistics_spec (mu sigma : list (list R)) (N T : nat) :
  is_matrix mu N T -> is_matrix sigma N 1 ->
  price_formulas mu sigma N T.
Proof.
  intros Hmu Hsigma. unfold price_formulas.
  pose proof (is_matrix_map (fun a => a ^ 2) sigma N 1 Hsigma) as Hsq.
  destruct (bop_column Rplus mu _ N T Hmu
              (is_matrix_map (fun x => x / 2) _ N 1 Hsq)) as (a & Ha & Hashape & Haentry).
  destruct (bop_column Rplus _ _ N T (is_matrix_map (Rmult 2) mu N T Hmu) Hsq)
    as (b & Hb & Hbshape & Hbentry).
  destruct (bop_column Rmult _ _ N T (is_matrix_map exp b N T Hbshape)
              (is_matrix_map (fun x => x - 1) _ N 1 (is_matrix_map exp _ N 1 Hsq)))
    as (c & Hc & Hcshape & Hcentry).
  exists (map (map exp) a), (map (map sqrt) c).
  split; [|split; [|split]].
  - unfold estimate_price_statistics, square. cbn [tmap].
    rewrite Ha. cbn [mbind result_bind]. rewrite Hb. cbn [mbind result_bind tmap].
    rewrite Hc. reflexivity.
  - by apply is_matrix_map.
  - by apply is_matrix_map.
  - intros i t Hi Ht. split.
    + rewrite (entry_map exp a N T) by assumption.
      rewrite Haentry by assumption.
      rewrite (entry_map (fun x => x / 2) _ N 1) by (try lia; assumption).
      rewrite (entry_map (fun a => a ^ 2) sigma N 1) by (try lia; assumption).
      reflexivity.
    + rewrite (entry_map sqrt c N T) by assumption.
      rewrite Hcentry by assumption.
      rewrite (entry_map exp b N T) by assumption.
      rewrite Hbentry by assumption.
      rewrite (entry_map (Rmult 2) mu N T) by assumption.
      rewrite (entry_map (fun x => x - 1) _ N 1)
        by (try lia; by apply is_matrix_map).
      rewrite (entry_map exp _ N 1) by (try lia; assumption).
      rewrite (entry_map (fun a => a ^ 2) sigma N 1) by (try lia; assumption).
      reflexivity.
Qed.

Lemma scalar_formulas_spec (phi tt mu : list (list R)) (psi sigma : R)
    (N K T N' T' : nat) :
  is_matrix phi N K -> is_matrix tt K T -> (0 < K)%nat -> is_matrix mu N' T' ->
  scalar_formulas phi tt mu psi sigma N K T N' T'.
Proof.
  intros Hphi Htt HK Hmu. split.
  - destruct (matmul_spec phi tt N K T Hphi Htt HK) as (mean & Hmm & Hshape & Hentry).
    exists mean. split; [|split; assumption].
    unfold estimate_logprice_statistics. cbn [np_dot]. rewrite Hmm. reflexivity.
  - eexists _, _. split; [reflexivity|]. split; [|split].
    + by do 2 apply is_matrix_map.
    + do 2 apply is_matrix_map.
      (* the product of two arrays of the shape of [mu] *)
      by do 3 apply is_matrix_map.
    + intros i t Hi Ht. split.
      * rewrite (entry_map exp _ N' T') by (try assumption; by apply is_matrix_map).
        rewrite (entry_map _ mu N' T') by assumption. reflexivity.
      * rewrite (entry_map sqrt _ N' T')
          by (try assumption; by do 4 apply is_matrix_map).
        rewrite (entry_map _ _ N' T')
          by (try assumption; by do 3 apply is_matrix_map).
        rewrite (entry_map exp _ N' T')
          by (try assumption; by do 2 apply is_matrix_map).
        rewrite (entry_map _ _ N' T')
          by (try assumption; by apply is_matrix_map).
        rewrite (entry_map (Rmult 2) mu N' T') by assumption.
        reflexivity.
Qed.

Lemma softplus_positive (x : R) : 0 < ln (1 + exp x).
Proof.
  rewrite <- ln_1. apply ln_increasing; [lra|].
  pose proof (exp_pos x). lra.
Qed.

Lemma price_dominates_spec (phi psi tt : list (list R)) (N K T : nat) :
  is_matrix phi N K -> is_matrix psi N 1 -> is_matrix tt K T -> (0 < K)%nat ->
  price_dominates phi psi tt N T.
Proof.
  intros Hphi Hpsi Htt HK.
  destruct (estimate_logprice_statistics_spec phi psi tt N K T Hphi Hpsi Htt HK)
    as (mean & std & Hlog & Hmean & Hstd & _ & Hsoft).
  destruct (estimate_price_statistics_spec mean std N T Hmean Hstd)
    as (mp & sp & Hprice & _ & _ & Hentry).
  exists mean, std, mp, sp. split; [exact Hlog|]. split; [exact Hprice|].
  intros i t Hi Ht.
  assert (0 < entry std i 0) as Hpos by (rewrite Hsoft by exact Hi; apply softplus_positive).
  split; [lra|].
  destruct (Hentry i t Hi Ht) as [-> _].
  left. apply exp_increasing. nra.
Qed.

(** C5. For a coefficient array [phi] of [N] rows and [K] columns, a
    volatility column [psi] of [N] rows and a time basis of [K] rows and
    [T] columns (all sizes positive), [estimate_logprice_statistics]
    returns the matrix product of [phi] with the basis and, for every
    entity, the softplus [ln (1 + exp psi)] of its volatility parameter,
    one value per entity that serves every time step.  For a mean array
    of [N'] rows and [T'] columns and a deviation column,
    [estimate_price_statistics] returns entry by entry
    [exp (mu + sigma^2 / 2)] and
    [sqrt (exp (2 mu + sigma^2) * (exp (sigma^2) - 1))].  The same holds
    when the volatility parameter is a single number, as at the market
    level.  Both are functions of their arguments alone, for any number
    of entities. *)
Theorem estimate_statistics_formulas
    (phi psi tt mu sigma : list (list R)) (N K T N' T' : nat) :
  is_matrix phi N K -> is_matrix psi N 1 -> is_matrix tt K T ->
  (0 < N)%nat -> (0 < K)%nat -> (0 < T)%nat ->
  is_matrix mu N' T' -> is_matrix sigma N' 1 ->
  (0 < N')%nat -> (0 < T')%nat ->
  logprice_formulas phi psi tt N K T /\ price_formulas mu sigma N' T' /\
  (forall psi0 sigma0 : R, scalar_formulas phi tt mu psi0 sigma0 N K T N' T').
Proof.
  intros Hphi Hpsi Htt _ HK _ Hmu Hsigma _ _. split; [|split].
  - by apply estimate_logprice_statistics_spec.
  - by apply estimate_price_statistics_spec.
  - intros psi0 sigma0. by apply scalar_formulas_spec.
Qed.

Lemma estimate_statistics_formulas_witness :
  logprice_formulas [[1; 2]] [[0]] [[1; 1]; [1; 2]] 1 2 2 /\
  price_formulas [[0; 1]] [[1]] 1 2 /\
  (forall psi0 sigma0 : R,
      scalar_formulas [[1; 2]] [[1; 1]; [1; 2]] [[0; 1]] psi0 sigma0 1 2 2 1 2).
Proof.
  apply (estimate_statistics_formulas
           [[1; 2]] [[0]] [[1; 1]; [1; 2]] [[0; 1]] [[1]] 1 2 2 1 2);
    try (split; [reflexivity|repeat constructor]); lia.
Defined.

(** C9. Applying [estimate_price_statistics] to what
    [estimate_logprice_statistics] returns succeeds; the standard
    deviation of every entity is nonzero and every entry of the mean
    price is at least the exponential of the corresponding entry of the
    mean log-price. *)
Theorem mean_price_ge_exp_mean_logp
    (phi psi tt : list (list R)) (N K T : nat) :
  is_matrix phi N K -> is_matrix psi N 1 -> is_matrix tt K T -> (0 < K)%nat ->
  price_dominates phi psi tt N T.
Proof. apply price_dominates_spec. Qed.

Lemma mean_price_ge_exp_mean_logp_witness :
  price_dominates [[1; 2]] [[0]] [[1; 1]; [1; 2]] 1 2.
Proof.
  apply (mean_price_ge_exp_mean_logp [[1; 2]] [[0]] [[1; 1]; [1; 2]] 1 2 2);
    try (split; [reflexivity|repeat constructor]); lia.
Defined.

(** ** Scores *)

Lemma lookup_nth_lt {A} (l : list A) (i : nat) (d : A) :
  (i < length l)%nat -> l !! i = Some (nth i l d).
Proof.
  intros Hi. destruct (lookup_lt_is_Some_2 l i Hi) as [x Hx].
  by rewrite (nth_lookup_Some l i d x Hx).
Qed.

Lemma getcol_spec (m : list (list R)) (N T j : nat) :
  is_matrix m N T -> (j < T)%nat ->
  getcol (T2 m) j = Ok (T1 (map (fun r => nth j r 0) m)).
Proof.
  intros [_ HT] Hj. cbn [getcol].
  rewrite (mapR_total _ (fun r => nth j r 0)); [reflexivity|].
  intros r Hr. rewrite List.Forall_forall in HT.
  rewrite (lookup_nth_lt r j 0) by (rewrite (HT r Hr); exact Hj). reflexivity.
Qed.

Lemma lastcol_spec (m : list (list R)) (N T : nat) :
  is_matrix m N T -> (0 < T)%nat ->
  lastcol (T2 m) = Ok (T1 (map (fun r => nth (T - 1) r 0) m)).
Proof.
  intros [_ HT] HTpos. cbn [lastcol].
  rewrite (mapR_total _ (fun r => nth (T - 1) r 0)); [reflexivity|].
  intros r Hr. rewrite List.Forall_forall in HT. specialize (HT r Hr).
  rewrite last_lookup, HT. replace (Init.Nat.pred T) with (T - 1)%nat by lia.
  rewrite (lookup_nth_lt r (T - 1) 0) by lia. reflexivity.
Qed.

Lemma concat_column (m : list (list R)) :
  Forall (fun r => length r = 1%nat) m -> concat m = map (fun r => nth 0 r 0) m.
Proof.
  induction 1 as [|r m Hr _ IH]; [reflexivity|].
  destruct r as [|a [|b r]]; try discriminate. cbn. by rewrite IH.
Qed.

(** Squeezing an [N x 1] column: a scalar when [N = 1], otherwise the
    vector of its entries. *)
Lemma squeeze_column (m : list (list R)) (N : nat) :
  is_matrix m N 1 ->
  squeeze (T2 m) =
    match m with
    | [[a]] => T0 a
    | _ => T1 (map (fun r => nth 0 r 0) m)
    end.
Proof.
  intros [_ H1]. pose proof (concat_column m H1) as Hcat.
  pose proof (forallb_row_lengths m 1 H1) as Hall.
  destruct m as [|r m]; [reflexivity|].
  inversion H1 as [|? ? Hr Hm]; subst.
  destruct r as [|a [|b r]]; try discriminate.
  destruct m as [|r' m]; [reflexivity|].
  cbn [squeeze]. rewrite Hall, Hcat. reflexivity.
Qed.

Lemma nth_zip_with (f : R -> R -> R) (u v : list R) (i : nat) :
  (i < length u)%nat -> (i < length v)%nat ->
  nth i (zip_with f u v) 0 = f (nth i u 0) (nth i v 0).
Proof.
  revert v i. induction u as [|x u IH]; intros [|y v] [|i] Hu Hv; cbn in *; try lia.
  - reflexivity.
  - apply IH; lia.
Qed.

Lemma scores_spec (logp_pred logp std : list (list R)) (horizon N H T : nat) :
  is_matrix logp_pred N H -> is_matrix logp N T -> is_matrix std N 1 ->
  (horizon < H)%nat -> (0 < T)%nat ->
  scores_formula logp_pred logp std horizon N T.
Proof.
  intros Hlp Hlogp Hstd Hh HT. unfold scores_formula, scores.
  rewrite (getcol_spec logp_pred N H horizon Hlp Hh). cbn [mbind result_bind].
  rewrite (lastcol_spec logp N T Hlogp HT). cbn [mbind result_bind bop].
  pose proof Hlp as [HlpN _]. pose proof Hlogp as [HlogpN _].
  pose proof Hstd as [HstdN Hstd1].
  unfold brow at 1. rewrite decide_True by (rewrite !length_map; lia).
  cbn [fmap result_fmap mbind result_bind].
  rewrite (squeeze_column std N Hstd).
  set (d := zip_with Rminus _ _).
  assert (length d = N) as Hd
      by (unfold d; rewrite length_zip_with, !length_map; lia).
  assert (forall i, (i < N)%nat ->
            nth i d 0 = entry logp_pred i horizon - entry logp i (T - 1)) as Hdi.
  { intros i Hi. unfold d. rewrite nth_zip_with by (rewrite length_map; lia).
    rewrite (nth_map_lt (fun r => nth horizon r 0) logp_pred i [] 0) by lia.
    rewrite (nth_map_lt (fun r => nth (T - 1) r 0) logp i [] 0) by lia.
    reflexivity. }
  assert (exists s, bop Rdiv (T1 d) (T1 (map (fun r => nth 0 r 0) std)) = Ok (T1 s) /\
                    length s = N /\
                    forall i, (i < N)%nat ->
                      nth i s 0 = nth i d 0 / entry std i 0) as Hvec.
  { cbn [bop]. unfold brow. rewrite decide_True by (rewrite length_map; lia).
    eexists. split; [reflexivity|]. split.
    - rewrite length_zip_with, length_map. lia.
    - intros i Hi. rewrite nth_zip_with by (rewrite ?length_map; lia).
      rewrite (nth_map_lt (fun r => nth 0 r 0) std i [] 0) by lia. reflexivity. }
  destruct std as [|[|a [|b r]] [|r' std]];
    try (destruct Hvec as (s & Hs & Hlen & Hsi); exists s;
         split; [exact Hs|]; split; [exact Hlen|];
         intros i Hi; rewrite Hsi, Hdi by exact Hi; reflexivity).
  (* one stock: the deviation has been squeezed to a scalar *)
  exists (map (fun x => x / a) d). split; [reflexivity|]. split.
  - by rewrite length_map.
  - intros i Hi. cbn in HstdN. assert (i = 0%nat) as -> by lia.
    rewrite (nth_map_lt (fun x => x / a) d 0 0 0) by lia.
    rewrite Hdi by lia. reflexivity.
Qed.

Lemma positive_quotient (x y : R) : 0 < y -> 0 < x / y -> 0 < x.
Proof.
  intros Hy Hq. replace x with (x / y * y) by (field; lra).
  apply Rmult_lt_0_compat; assumption.
Qed.

Lemma scores_sign (logp_pred logp std : list (list R)) (horizon N H T : nat) :
  is_matrix logp_pred N H -> is_matrix logp N T -> is_matrix std N 1 ->
  (horizon < H)%nat -> (0 < T)%nat ->
  (forall i, (i < N)%nat -> 0 < entry std i 0) ->
  positive_score_means_predicted_above logp_pred logp std horizon.
Proof.
  intros Hlp Hlogp Hstd Hh HT Hpos s i Hs Hi Hscore.
  destruct (scores_spec logp_pred logp std horizon N H T Hlp Hlogp Hstd Hh HT)
    as (s' & Hs' & Hlen & Hsi).
  rewrite Hs in Hs'. injection Hs' as <-.
  rewrite Hlen in Hi. rewrite (Hsi i Hi) in Hscore.
  apply positive_quotient in Hscore; [|by apply Hpos].
  rewrite (ncols_matrix logp N T Hlogp) by lia.
  assert (entry logp i (T - 1) < entry logp_pred i horizon) as Hlt by lra.
  split; [exact Hlt|]. by apply exp_increasing.
Qed.

(** C3 (as amended).  For every stock [i] the score is the forecast of
    the log-price at the horizon minus the last observed log-price,
    divided by the standard deviation of the stock.  The standard
    deviation being positive, a positive score means that the predicted
    log-price, and so the predicted price, is above the last observed
    one: the current price is below the trend. *)
Theorem scores_standardized_deviation
    (logp_pred logp std : list (list R)) (horizon N H T : nat) :
  is_matrix logp_pred N H -> is_matrix logp N T -> is_matrix std N 1 ->
  (horizon < H)%nat -> (0 < T)%nat ->
  (forall i, (i < N)%nat -> 0 < entry std i 0) ->
  scores_formula logp_pred logp std horizon N T /\
  positive_score_means_predicted_above logp_pred logp std horizon.
Proof.
  intros Hlp Hlogp Hstd Hh HT Hpos. split.
  - by apply (scores_spec logp_pred logp std horizon N H T).
  - by apply (scores_sign logp_pred logp std horizon N H T).
Qed.

Lemma scores_standardized_deviation_witness :
  scores_formula [[0; 1]; [2; 0]] [[0]; [1]] [[1]; [2]] 1 2 1 /\
  positive_score_means_predicted_above [[0; 1]; [2; 0]] [[0]; [1]] [[1]; [2]] 1.
Proof.
  apply (scores_standardized_deviation
           [[0; 1]; [2; 0]] [[0]; [1]] [[1]; [2]] 1 2 2 1);
    try (split; [reflexivity|repeat constructor]); try lia.
  intros [|[|i]] Hi; unfold entry; simpl; try lra. lia.
Defined.

(** C3 (as stated).  One stock whose forecast at the horizon is 1, whose
    last observed log-price is 0 and whose standard deviation is 1 has
    the positive score 1, and its predicted price [exp 1] is not below
    its current price [exp 0]. *)
Lemma positive_score_predicted_below_counterexample :
  ~ positive_score_means_predicted_below [[0; 1]] [[0]] [[1]] 1.
Proof.
  intros Hclaim.
  assert (scores (T2 [[0; 1]]) (T2 [[0]]) (T2 [[1]]) 1 = Ok (T1 [(1 - 0) / 1]))
    as Hs by reflexivity.
  specialize (Hclaim [(1 - 0) / 1] 0%nat Hs).
  unfold entry in Hclaim. cbn [length nth ncols Nat.sub] in Hclaim.
  assert (exp 0 < exp 1) as Hexp by (apply exp_increasing; lra).
  assert (exp 1 < exp 0) as Hbad by (apply Hclaim; [lia|lra]).
  lra.
Qed.

(** ** Time basis *)

Lemma length_linspace (start stop : R) (num : nat) :
  length (linspace start stop num) = num.
Proof.
  unfold linspace.
  repeat case_decide; rewrite ?length_insert, !length_map, length_seq; reflexivity.
Qed.

(** The grid of line 266: the [t] points [1/t], [2/t], ..., [t/t]. *)
Lemma linspace_unit_grid (t j : nat) :
  (0 < t)%nat -> (j < t)%nat ->
  nth j (linspace (1 / INR t) 1 t) 0 = INR (j + 1) / INR t.
Proof.
  intros Ht Hj.
  assert (0 < INR t) as HtR by (apply lt_0_INR; exact Ht).
  assert (forall f : R -> R,
            nth j (map f (map INR (seq 0 t))) 0 = f (INR j)) as Hnth.
  { intros f. rewrite map_map.
    rewrite (nth_map_lt (fun x => f (INR x)) (seq 0 t) j 0%nat 0)
      by (rewrite length_seq; exact Hj).
    by rewrite seq_nth. }
  unfold linspace. rewrite plus_INR. cbn [INR].
  destruct (decide (1 < t)%nat) as [Hbig|Hsmall].
  - rewrite decide_True by lia.
    assert (INR (t - 1) = INR t - 1) as Hdiv
        by (rewrite minus_INR by lia; reflexivity).
    assert (0 < INR t - 1) as Hdivpos.
    { rewrite <- Hdiv. apply lt_0_INR. lia. }
    rewrite nth_lookup. destruct (decide (j = (t - 1)%nat)) as [->|Hne].
    + rewrite list_lookup_insert_eq by (rewrite !length_map, length_seq; lia).
      cbn [default]. unfold Datatypes.id. rewrite Hdiv. field. lra.
    + rewrite list_lookup_insert_ne by (intros Heq; apply Hne; symmetry; exact Heq).
      rewrite <- nth_lookup, Hnth, Hdiv. field. lra.
  - assert (t = 1%nat) as -> by lia. assert (j = 0%nat) as -> by lia.
    cbn. rewrite decide_False by lia. cbn. field.
Qed.

Lemma power_outer_entry (base : list R) (n k j : nat) :
  (k < n)%nat -> (j < length base)%nat ->
  entry (power_outer base (seq 0 n)) k j = (nth j base 0) ^ k.
Proof.
  intros Hk Hj. unfold entry, power_outer.
  rewrite (nth_map_lt (fun k => map (fun x => x ^ k) base) (seq 0 n) k 0%nat [])
    by (rewrite length_seq; exact Hk).
  rewrite seq_nth by exact Hk. cbn [Nat.add].
  exact (nth_map_lt (fun x => x ^ k) base j 0 0 Hj).
Qed.

Lemma power_outer_shape (base : list R) (n : nat) :
  is_matrix (power_outer base (seq 0 n)) n (length base).
Proof.
  split.
  - unfold power_outer. by rewrite length_map, length_seq.
  - apply List.Forall_map, List.Forall_forall. intros k _. cbn. by rewrite length_map.
Qed.

Lemma time_basis_spec (t order : nat) :
  (0 < t)%nat -> time_basis_formula t order.
Proof.
  intros Ht. unfold time_basis_formula, time_basis.
  rewrite decide_False by lia. eexists. split; [reflexivity|]. split.
  - pose proof (power_outer_shape (linspace (1 / INR t) 1 t) (order + 1)) as Hs.
    by rewrite length_linspace in Hs.
  - intros k j Hk Hj.
    rewrite power_outer_entry by (rewrite ?length_linspace; lia).
    by rewrite linspace_unit_grid.
Qed.

Lemma tt_pred_spec (t horizon order : nat) :
  (0 < t)%nat -> tt_pred_formula t horizon order.
Proof.
  intros Ht. unfold tt_pred_formula, tt_pred.
  assert (0 < INR t) as HtR by (apply lt_0_INR; exact Ht).
  set (base := map (fun h => 1 + INR h / INR t) (seq 0 (1 + horizon))).
  assert (length base = (horizon + 1)%nat) as Hlen
      by (unfold base; rewrite length_map, length_seq; lia).
  eexists. split; [reflexivity|]. split.
  - pose proof (power_outer_shape base (order + 1)) as Hs. by rewrite Hlen in Hs.
  - intros k h Hk Hh. rewrite power_outer_entry by lia.
    unfold base.
    rewrite (nth_map_lt (fun h => 1 + INR h / INR t) (seq 0 (1 + horizon)) h 0%nat 0)
      by (rewrite length_seq; lia).
    rewrite seq_nth by lia. cbn [Nat.add]. f_equal. field. lra.
Qed.

(** C7 (as amended).  For [T > 0] observed time steps, [tt] has
    [order + 1] rows and [T] columns and its row [k] holds [(t/T)^k] for
    [t = 1, ..., T].  The forecast basis [tt_pred] has [order + 1] rows
    and [horizon + 1] columns, and its row [k] holds [((T + h)/T)^k] for
    the offsets [h = 0, ..., horizon]: its first column is the last
    observed time step and its column [horizon] the forecast at the
    horizon. *)
Theorem time_basis_and_forecast_basis (t horizon order : nat) :
  (0 < t)%nat ->
  time_basis_formula t order /\ tt_pred_formula t horizon order.
Proof.
  intros Ht. split.
  - by apply time_basis_spec.
  - by apply tt_pred_spec.
Qed.

Lemma time_basis_and_forecast_basis_witness :
  time_basis_formula 4 2 /\ tt_pred_formula 4 5 2.
Proof. apply (time_basis_and_forecast_basis 4 5 2). lia. Defined.

(** C7 (as stated).  With 4 observed time steps, horizon 5 and order 2
    the forecast basis of the program is not the basis over the offsets
    [T+1], ..., [T+5]: its rows have six entries, not five. *)
Lemma tt_pred_offsets_counterexample :
  tt_pred 4 5 2 <> tt_pred_as_specified 4 5 2.
Proof.
  intros Heq.
  apply (f_equal (fun x => match x with
                           | T2 (r :: _) => length r
                           | _ => 0%nat
                           end)) in Heq.
  vm_compute in Heq. discriminate.
Qed.

(** ** Model definition *)

Lemma define_model_unknown (info : info_t) (level : string) :
  is_Ok (len (order_scale info)) -> level ∉ available_levels ->
  define_model info level = Raise (Exception unknown_level_msg).
Proof.
  intros [n Hn] Hlevel. unfold define_model. rewrite Hn. cbn [mbind result_bind].
  by rewrite bool_decide_eq_true_2.
Qed.

Lemma define_model_known (info : info_t) (level : string) :
  is_Ok (len (order_scale info)) -> level ∈ available_levels ->
  exists m, define_model info level = Ok m /\ (3 <= length m)%nat.
Proof.
  intros [n Hn] Hlevel. unfold define_model. rewrite Hn. cbn [mbind result_bind].
  rewrite bool_decide_eq_false_2 by (intros Hnot; by apply Hnot).
  eexists. split; [reflexivity|].
  unfold available_levels in Hlevel.
  repeat (apply elem_of_cons in Hlevel as [->|Hlevel]; [vm_compute; lia|]).
  by apply elem_of_nil in Hlevel.
Qed.

Lemma main_unknown_rank {world out : Type}
    (pipeline : string -> world -> world * result out) (rank : string) (w : world) :
  lower rank ∉ rank_modes ->
  exists msg, main pipeline rank w = (w, Raise (Exception msg)).
Proof.
  intros Hrank. unfold main. rewrite bool_decide_eq_true_2 by exact Hrank.
  eexists. reflexivity.
Qed.

(** C8. [define_model] raises the configuration error for a level that
    is not one of market, sector, industry and stock, and returns no
    model at all in that case; for each of the four levels it returns a
    model.  [__main__] given a ranking mode that is neither rate nor
    growth raises before the rest of the program runs: whatever the rest
    would do, the world is left as it was. *)
Theorem configuration_errors (info : info_t) (unknown known : string)
    {world out : Type} (pipeline : string -> world -> world * result out)
    (rank : string) (w : world) :
  is_Ok (len (order_scale info)) ->
  unknown ∉ available_levels -> known ∈ available_levels ->
  lower rank ∉ rank_modes ->
  define_model info unknown = Raise (Exception unknown_level_msg) /\
  (exists m, define_model info known = Ok m /\ (3 <= length m)%nat) /\
  (exists msg, main pipeline rank w = (w, Raise (Exception msg))).
Proof.
  intros Hinfo Hunknown Hknown Hrank. split; [|split].
  - by apply define_model_unknown.
  - by apply define_model_known.
  - by apply main_unknown_rank.
Qed.

Lemma configuration_errors_witness :
  define_model example_info "country" = Raise (Exception unknown_level_msg) /\
  (exists m, define_model example_info "sector" = Ok m /\ (3 <= length m)%nat) /\
  (exists msg,
      main (fun (_ : string) (w : list string) => (("ran"%string :: w), Ok 0%nat))
           "score" [] = ([], Raise (Exception msg))).
Proof.
  apply (configuration_errors example_info "country" "sector").
  - eexists. reflexivity.
  - apply (bool_decide_unpack _). vm_compute. reflexivity.
  - apply (bool_decide_unpack _). vm_compute. reflexivity.
  - apply (bool_decide_unpack _). vm_compute. reflexivity.
Defined.

Lemma gather_rows (m : list (list R)) (ids : list nat) :
  Forall (fun i => (i < length m)%nat) ids ->
  exists rows, gather (T2 m) ids = Ok (T2 rows) /\
    length rows = length ids /\
    forall j i, ids !! j = Some i -> rows !! j = m !! i.
Proof.
  intros Hids. exists (map (fun i => nth i m []) ids). split; [|split].
  - cbn [gather]. rewrite (mapR_total _ (fun i => nth i m [])); [reflexivity|].
    intros i Hi. rewrite List.Forall_forall in Hids. unfold getrow.
    by rewrite (lookup_nth_lt m i []) by (apply Hids, Hi).
  - by rewrite length_map.
  - intros j i Hj. rewrite list_lookup_fmap, Hj. cbn.
    rewrite List.Forall_forall in Hids. symmetry. apply lookup_nth_lt.
    apply Hids. apply list_elem_of_In. by eapply list_elem_of_lookup_2.
Qed.

Lemma define_model_stock (info : info_t) :
  is_Ok (len (order_scale info)) ->
  exists m, define_model info "stock" = Ok m /\
    length m = 9%nat /\
    m !! 4%nat = Some (Lam (fun psi_s phi_s =>
                         l ← gather phi_s (sector_industries_id info);
                         Ok {| loc := l; scale := order_scale info |})) /\
    m !! 6%nat = Some (Lam (fun psi_i phi_i =>
                         l ← gather phi_i (industries_id info);
                         Ok {| loc := l;
                               scale := tmap (Rmult (1/2)) (order_scale info) |})).
Proof.
  intros [n Hn]. unfold define_model. rewrite Hn. cbn [mbind result_bind].
  eexists. split; [reflexivity|]. repeat split.
Qed.

Lemma gather_propagation_spec (info : info_t)
    (phi_s psi_s phi_i psi_i : list (list R)) (rest : list tensor) :
  is_Ok (len (order_scale info)) ->
  Forall (fun k => (k < length phi_s)%nat) (sector_industries_id info) ->
  Forall (fun k => (k < length phi_i)%nat) (industries_id info) ->
  hierarchy_consistent info ->
  gather_propagation info phi_s psi_s phi_i psi_i rest.
Proof.
  intros Hinfo Hsec Hind Hcons.
  destruct (define_model_stock info Hinfo) as (m & Hm & _ & Hm4 & Hm6).
  destruct (gather_rows phi_s _ Hsec) as (loc_i & Hgi & Hleni & Hrowi).
  destruct (gather_rows phi_i _ Hind) as (loc_stock & Hgs & Hlens & Hrows).
  unfold gather_propagation.
  eexists m, _, _, _, _, loc_i, loc_stock.
  split; [exact Hm|]. split; [exact Hm4|]. split; [exact Hm6|].
  split; [cbn [apply_layer]; rewrite Hgi; reflexivity|].
  split; [reflexivity|].
  split; [cbn [apply_layer]; rewrite Hgs; reflexivity|].
  split; [reflexivity|].
  split; [exact Hleni|]. split; [exact Hlens|].
  intros j ind sec Hj Hsecj. split.
  - by apply Hrows.
  - destruct (Hcons j ind Hj) as (sec' & Hsec' & Hsecj').
    rewrite Hsecj in Hsecj'. injection Hsecj' as <-.
    by apply Hrowi.
Qed.

(** C6. In the stock-level model the location of the prior of the
    stock-level [phi] is the industry-level [phi] gathered by
    [industries_id], so that row [j] is the row of the industry of stock
    [j], in the order of the stocks; the location of the prior of the
    industry-level [phi] is the sector-level [phi] gathered by
    [sector_industries_id].  When the hierarchy is consistent, the prior
    mean of the industry of stock [j] is therefore the row of the
    sector-level [phi] of the sector recorded for stock [j]. *)
Theorem gather_based_propagation (info : info_t)
    (phi_s psi_s phi_i psi_i : list (list R)) (rest : list tensor) :
  is_Ok (len (order_scale info)) ->
  Forall (fun k => (k < length phi_s)%nat) (sector_industries_id info) ->
  Forall (fun k => (k < length phi_i)%nat) (industries_id info) ->
  hierarchy_consistent info ->
  gather_propagation info phi_s psi_s phi_i psi_i rest.
Proof. apply gather_propagation_spec. Qed.

Lemma gather_based_propagation_witness :
  gather_propagation example_info [[1; 2]] [[0]] [[3; 4]] [[0]] [].
Proof.
  apply (gather_based_propagation example_info [[1; 2]] [[0]] [[3; 4]] [[0]] []).
  - eexists. reflexivity.
  - repeat constructor.
  - repeat constructor.
  - intros [|[|j]] ind Hj; cbn in Hj; try discriminate;
      injection Hj as <-; exists 0%nat; split; reflexivity.
Defined.

(** ** Staged optimizer *)

Section TrainFacts.
Context `{TFP}.

Lemma length_assign (vars : list nat) (vals σ : list tensor) :
  length (assign vars vals σ) = length σ.
Proof.
  unfold assign. induction (zip vars vals) as [|[l v] lvs IH]; cbn [foldr].
  - reflexivity.
  - by rewrite length_insert.
Qed.

(** Assigning to some variables leaves the others as they are. *)
Lemma assign_frame (vars : list nat) (vals σ : list tensor) (l : nat) :
  l ∉ vars -> assign vars vals σ !! l = σ !! l.
Proof.
  unfold assign. revert vals.
  induction vars as [|x vars IH]; intros vals Hl; [reflexivity|].
  destruct vals as [|v vals]; [reflexivity|]. cbn [zip zip_with foldr fst snd].
  apply not_elem_of_cons in Hl as [Hne Hl].
  rewrite list_lookup_insert_ne by (intros Heq; apply Hne; symmetry; exact Heq).
  by apply IH.
Qed.

(** The loop of the optimizer runs the requested number of steps,
    records one loss per step and writes to trained variables only. *)
Lemma minimize_steps_frame (loss : list tensor -> result R) (vars : list nat)
    (n : nat) : forall s trace s',
  minimize_steps loss vars n s = Ok (trace, s') ->
  length trace = n /\
  length (store s') = length (store s) /\
  gen s' = gen s /\
  forall l, l ∉ vars -> store s' !! l = store s !! l.
Proof.
  induction n as [|n IH]; intros s trace s'; cbn [minimize_steps].
  - intros [= <- <-]. auto.
  - destruct (loss (store s)) as [v|e]; [|discriminate].
    destruct (apply_gradients _ _ _) as [o new].
    destruct (minimize_steps loss vars n _) as [[trace' s'']|e] eqn:Hrec;
      [|discriminate].
    intros [= <- <-]. apply IH in Hrec as (Hlen & Hstore & Hgen & Hframe).
    cbn [store gen] in *. repeat split.
    + cbn. by rewrite Hlen.
    + by rewrite Hstore, length_assign.
    + exact Hgen.
    + intros l Hl. rewrite Hframe by exact Hl. by apply assign_frame.
Qed.

Lemma minimize_frame (model : list layer) (args : list tfval) (data : tensor)
    (n : Z) (s : state) (trace : list R) (s' : state) :
  minimize model args data n s = Ok (trace, s') ->
  length trace = Z.to_nat n /\
  length (store s') = length (store s) /\
  forall l, l ∉ trainable args -> store s' !! l = store s !! l.
Proof.
  intros Hmin. apply minimize_steps_frame in Hmin as (? & ? & _ & ?). auto.
Qed.

Lemma sample_from_store (m : list layer) : forall prev s xs s',
  sample_from m prev s = Ok (xs, s') ->
  store s' = store s /\ optimizer s' = optimizer s.
Proof.
  induction m as [|l m IH]; intros prev s xs s'; cbn [sample_from].
  - intros [= <- <-]. auto.
  - unfold mbind, M_bind, lift, draw_one.
    destruct (apply_layer l prev) as [d|e]; [|discriminate].
    destruct (draw d (gen s)) as [x g].
    destruct (sample_from m (x :: prev) _) as [[xs' s'']|e] eqn:Hrec;
      [|discriminate].
    intros [= <- <-]. by apply IH in Hrec.
Qed.

(** A new parameter is a fresh variable at the end of the store. *)
Lemma new_parameter_fresh (model : list layer) (lo hi i : nat)
    (s : state) (v : tfval) (s' : state) :
  new_parameter model lo hi i s = Ok (v, s') ->
  v = Var (length (store s)) /\
  optimizer s' = optimizer s /\
  exists init, store s' = store s ++ [init].
Proof.
  unfold new_parameter, mbind, M_bind, sample, lift, tf_Variable.
  destruct (sample_from model [] s) as [[xs s1]|e] eqn:Hsample; [|discriminate].
  apply sample_from_store in Hsample as [Hstore Hopt].
  destruct (slice_index xs lo hi i) as [x|e]; [|discriminate].
  intros [= <- <-]. cbn [store optimizer]. rewrite Hstore, Hopt.
  split; [reflexivity|]. split; [reflexivity|]. by eexists.
Qed.

End TrainFacts.

Section StageFacts.
Context `{TFP}.

Lemma trainable_after_constants (consts : list tensor) (a b : nat) :
  trainable (map Const consts ++ [Var a; Var b]) = [a; b].
Proof. unfold trainable. induction consts as [|c consts IH]; [reflexivity|exact IH]. Qed.

(** Two new parameters followed by an optimization in which everything
    else is a constant. *)
Lemma parameters_then_minimize (model model' : list layer) (lo hi : nat)
    (consts : list tensor) (data : tensor) (n : Z)
    (s sa sb s' : state) (v w : tfval) (trace : list R) :
  new_parameter model lo hi 0 s = Ok (v, sa) ->
  new_parameter model lo hi 1 sa = Ok (w, sb) ->
  minimize model' (map Const consts ++ [v; w]) data n sb = Ok (trace, s') ->
  stage_effect s s' v w trace n.
Proof.
  intros Hv Hw Hmin.
  apply new_parameter_fresh in Hv as (-> & _ & init_v & Hsa).
  apply new_parameter_fresh in Hw as (-> & _ & init_w & Hsb).
  apply minimize_frame in Hmin as (Htrace & Hlen & Hframe).
  rewrite trainable_after_constants in Hframe.
  rewrite Hsb, Hsa, !length_app in Hlen. cbn [length] in Hlen.
  unfold stage_effect. rewrite Hsa, length_app. cbn [length].
  split; [reflexivity|]. split; [f_equal; lia|]. split; [lia|].
  split; [|exact Htrace].
  intros l Hl. rewrite Hframe.
  - rewrite Hsb, Hsa, <- app_assoc. by apply lookup_app_l.
  - rewrite !not_elem_of_cons, Hsa, length_app. cbn [length].
    split; [lia|]. split; [lia|]. apply not_elem_of_nil.
Qed.

(** A variable that exists when a stage starts reads the same when the
    stage has ended; a constant reads the same in every state. *)
Lemma stage_effect_numpy (s s' : state) (v w : tfval) (trace : list R) (n : Z)
    (x : tfval) :
  stage_effect s s' v w trace n ->
  match x with
  | Const _ => True
  | Var l => (l < length (store s))%nat
  end ->
  numpy s' x = numpy s x.
Proof.
  intros (_ & _ & _ & Hframe & _) Hx. destruct x as [t|l]; [reflexivity|].
  unfold numpy, read. by rewrite Hframe.
Qed.

Lemma market_stage_effect (logp : list (list R)) (info : info_t) (n : Z)
    (s s' : state) (v w : tfval) (trace : list R) :
  market_stage logp info n s = Ok (v, w, trace, s') ->
  stage_effect s s' v w trace n.
Proof.
  unfold market_stage, mbind, M_bind, lift, mret, M_ret.
  destruct (define_model info "market") as [model|e]; [|discriminate].
  destruct (new_parameter model 0 2 0 s) as [[v' sa]|e] eqn:Hv; [|discriminate].
  destruct (new_parameter model 0 2 1 sa) as [[w' sb]|e] eqn:Hw; [|discriminate].
  destruct (minimize model [v'; w'] _ n sb) as [[trace' sm]|e] eqn:Hmin;
    [|discriminate].
  intros [= <- <- <- <-].
  exact (parameters_then_minimize model model 0 2 [] _ n s sa sb sm v' w' trace'
           Hv Hw Hmin).
Qed.

Lemma sector_stage_effect (logp : list (list R)) (info : info_t) (n : Z)
    (vm wm : tfval) (s s' : state) (cm dm v w : tfval) (trace : list R) :
  sector_stage logp info n vm wm s = Ok (cm, dm, v, w, trace, s') ->
  cm = Const (numpy s vm) /\ dm = Const (numpy s wm) /\
  stage_effect s s' v w trace n.
Proof.
  unfold sector_stage, mbind, M_bind, lift, mret, M_ret, tf_constant.
  destruct (define_model info "sector") as [model|e]; [|discriminate].
  destruct (new_parameter model 2 4 0 s) as [[v' sa]|e] eqn:Hv; [|discriminate].
  destruct (new_parameter model 2 4 1 sa) as [[w' sb]|e] eqn:Hw; [|discriminate].
  destruct (mapR _ _) as [data|e]; [|discriminate].
  destruct (minimize model _ _ n sb) as [[trace' sm]|e] eqn:Hmin; [|discriminate].
  intros [= <- <- <- <- <- <-]. split; [reflexivity|]. split; [reflexivity|].
  exact (parameters_then_minimize model model 2 4 [numpy s vm; numpy s wm]
           _ n s sa sb sm v' w' trace' Hv Hw Hmin).
Qed.

Lemma industry_stage_effect (logp : list (list R)) (info : info_t) (n : Z)
    (a b : tensor) (vs ws : tfval) (s s' : state) (cs ds v w : tfval)
    (trace : list R) :
  industry_stage logp info n (Const a) (Const b) vs ws s
    = Ok (cs, ds, v, w, trace, s') ->
  cs = Const (numpy s vs) /\ ds = Const (numpy s ws) /\
  stage_effect s s' v w trace n.
Proof.
  unfold industry_stage, mbind, M_bind, lift, mret, M_ret, tf_constant.
  destruct (define_model info "industry") as [model|e]; [|discriminate].
  destruct (new_parameter model 4 6 0 s) as [[v' sa]|e] eqn:Hv; [|discriminate].
  destruct (new_parameter model 4 6 1 sa) as [[w' sb]|e] eqn:Hw; [|discriminate].
  destruct (mapR _ _) as [data|e]; [|discriminate].
  destruct (minimize model _ _ n sb) as [[trace' sm]|e] eqn:Hmin; [|discriminate].
  intros [= <- <- <- <- <- <-]. split; [reflexivity|]. split; [reflexivity|].
  exact (parameters_then_minimize model model 4 6
           [a; b; numpy s vs; numpy s ws]
           _ n s sa sb sm v' w' trace' Hv Hw Hmin).
Qed.

Lemma stock_stage_effect (logp : list (list R)) (info : info_t) (n : Z)
    (a b c d : tensor) (vi wi : tfval) (s s' : state) (ci di v w : tfval)
    (trace : list R) :
  stock_stage logp info n (Const a) (Const b) (Const c) (Const d) vi wi s
    = Ok (ci, di, v, w, trace, s') ->
  ci = Const (numpy s vi) /\ di = Const (numpy s wi) /\
  stage_effect s s' v w trace n.
Proof.
  unfold stock_stage, mbind, M_bind, lift, mret, M_ret, tf_constant.
  destruct (define_model info "stock") as [model|e]; [|discriminate].
  destruct (new_parameter model 6 8 0 s) as [[v' sa]|e] eqn:Hv; [|discriminate].
  destruct (new_parameter model 6 8 1 sa) as [[w' sb]|e] eqn:Hw; [|discriminate].
  destruct (minimize model _ _ n sb) as [[trace' sm]|e] eqn:Hmin; [|discriminate].
  intros [= <- <- <- <- <- <-]. split; [reflexivity|]. split; [reflexivity|].
  exact (parameters_then_minimize model model 6 8
           [a; b; c; d; numpy s vi; numpy s wi]
           _ n s sa sb sm v' w' trace' Hv Hw Hmin).
Qed.

End StageFacts.

Section TrainTheorems.
Context `{TFP}.

Lemma numpy_preserved (s s' : state) (l : nat) :
  (forall k, (k < length (store s))%nat -> store s' !! k = store s !! k) ->
  (l < length (store s))%nat ->
  numpy s' (Var l) = numpy s (Var l).
Proof. intros Hframe Hl. unfold numpy, read. by rewrite Hframe. Qed.

Lemma train_staged_freeze (logp : list (list R)) (info : info_t)
    (learning_rate : R) (num_steps : Z) (σ : list tensor) (g : rng)
    (r : trained) (sf : state) :
  train logp info learning_rate num_steps σ g = Ok (r, sf) ->
  staged_freeze logp info learning_rate num_steps σ g r sf.
Proof.
  unfold train, train_with_losses, staged_freeze.
  set (n := num_steps_l num_steps).
  set (s0 := {| store := σ; optimizer := Adam learning_rate; gen := g |}).
  cbn [mbind result_bind].
  destruct (market_stage logp info n s0) as [[[[vm wm] lm] s1]|e] eqn:Hmarket;
    cbn [mbind result_bind]; [|discriminate].
  destruct (sector_stage logp info n vm wm s1)
    as [[[[[[cm dm] vs] ws] ls] s2]|e] eqn:Hsector;
    cbn [mbind result_bind]; [|discriminate].
  destruct (industry_stage logp info n cm dm vs ws s2)
    as [[[[[[cs ds] vi] wi] li] s3]|e] eqn:Hindustry;
    cbn [mbind result_bind]; [|discriminate].
  destruct (stock_stage logp info n cm dm cs ds vi wi s3)
    as [[[[[[ci di] v] w] l] s4]|e] eqn:Hstock;
    cbn [mbind result_bind]; [|discriminate].
  intros [= <- <-]. cbn [phi_m psi_m phi_s psi_s phi_i psi_i phi psi].
  exists vm, wm, lm, s1, cm, dm, vs, ws, ls, s2, cs, ds, vi, wi, li, s3, ci, di, l.
  split; [reflexivity|]. split; [exact Hsector|]. split; [exact Hindustry|].
  split; [exact Hstock|].
  pose proof (market_stage_effect _ _ _ _ _ _ _ _ Hmarket)
    as (-> & -> & Hlen1 & _ & _).
  pose proof (sector_stage_effect _ _ _ _ _ _ _ _ _ _ _ _ Hsector)
    as (Hcm & Hdm & -> & -> & Hlen2 & Hframe2 & _).
  subst cm dm.
  pose proof (industry_stage_effect _ _ _ _ _ _ _ _ _ _ _ _ _ _ Hindustry)
    as (Hcs & Hds & -> & -> & Hlen3 & Hframe3 & _).
  subst cs ds.
  pose proof (stock_stage_effect _ _ _ _ _ _ _ _ _ _ _ _ _ _ _ _ Hstock)
    as (Hci & Hdi & _ & _ & Hlen4 & Hframe4 & _).
  subst ci di.
  assert (forall k, (k < length (store s1))%nat ->
            numpy s2 (Var k) = numpy s1 (Var k)) as H12
      by (intros; by apply numpy_preserved).
  assert (forall k, (k < length (store s2))%nat ->
            numpy s3 (Var k) = numpy s2 (Var k)) as H23
      by (intros; by apply numpy_preserved).
  assert (forall k, (k < length (store s3))%nat ->
            numpy s4 (Var k) = numpy s3 (Var k)) as H34
      by (intros; by apply numpy_preserved).
  cbn [store] in *.
  repeat split; try reflexivity;
    rewrite ?H34, ?H23, ?H12 by lia; reflexivity.
Qed.

(** Every loss trace of a run of [train] has one entry for each of the
    [num_steps // 4] steps of its stage. *)
Lemma train_stage_iterations (logp : list (list R)) (info : info_t)
    (learning_rate : R) (num_steps : Z) (σ : list tensor) (g : rng)
    (r : trained) (ls : losses) (sf : state) :
  train_with_losses logp info learning_rate num_steps σ g = Ok (r, ls, sf) ->
  length (loss_m ls) = Z.to_nat (num_steps / 4) /\
  length (loss_s ls) = Z.to_nat (num_steps / 4) /\
  length (loss_i ls) = Z.to_nat (num_steps / 4) /\
  length (loss ls) = Z.to_nat (num_steps / 4).
Proof.
  unfold train_with_losses.
  assert (num_steps_l num_steps = (num_steps / 4)%Z) as ->
      by (unfold num_steps_l; apply Qceiling_Z).
  set (n := (num_steps / 4)%Z).
  cbn [mbind result_bind].
  destruct (market_stage logp info n _) as [[[[vm wm] lm] s1]|e] eqn:Hmarket;
    cbn [mbind result_bind]; [|discriminate].
  destruct (sector_stage logp info n vm wm s1)
    as [[[[[[cm dm] vs] ws] lsec] s2]|e] eqn:Hsector;
    cbn [mbind result_bind]; [|discriminate].
  destruct (industry_stage logp info n cm dm vs ws s2)
    as [[[[[[cs ds] vi] wi] li] s3]|e] eqn:Hindustry;
    cbn [mbind result_bind]; [|discriminate].
  destruct (stock_stage logp info n cm dm cs ds vi wi s3)
    as [[[[[[ci di] v] w] l] s4]|e] eqn:Hstock;
    cbn [mbind result_bind]; [|discriminate].
  intros [= <- <- <-]. cbn [loss_m loss_s loss_i loss].
  pose proof (market_stage_effect _ _ _ _ _ _ _ _ Hmarket) as (_ & _ & _ & _ & Hm).
  pose proof (sector_stage_effect _ _ _ _ _ _ _ _ _ _ _ _ Hsector)
    as (-> & -> & _ & _ & _ & _ & Hs).
  pose proof (industry_stage_effect _ _ _ _ _ _ _ _ _ _ _ _ _ _ Hindustry)
    as (-> & -> & _ & _ & _ & _ & Hi).
  pose proof (stock_stage_effect _ _ _ _ _ _ _ _ _ _ _ _ _ _ _ _ Hstock)
    as (_ & _ & _ & _ & _ & _ & Hst).
  auto.
Qed.

End TrainTheorems.

(** C1. In every run of [train], cut at the end of its four stages: the
    market parameters read the same at the end of the sector, industry
    and stock stages as at the end of the market stage, the sector
    parameters the same at the end of the industry and stock stages as at
    the end of the sector stage, the industry parameters the same at the
    end of the stock stage as at the end of the industry stage; and the
    returned tuple holds, as constants, the value each of these had when
    its own stage ended, next to the two stock-level variables as the
    stock stage left them. *)
Theorem frozen_parameters_never_mutated `{TFP}
    (logp : list (list R)) (info : info_t) (learning_rate : R) (num_steps : Z)
    (σ : list tensor) (g : rng) (r : trained) (sf : state) :
  train logp info learning_rate num_steps σ g = Ok (r, sf) ->
  staged_freeze logp info learning_rate num_steps σ g r sf.
Proof. apply train_staged_freeze. Qed.

Lemma frozen_parameters_never_mutated_witness :
  exists r sf,
    @train example_TFP example_logp example_info (1 / 100) 8 [] () = Ok (r, sf) /\
    @staged_freeze example_TFP example_logp example_info (1 / 100) 8 [] () r sf.
Proof.
  assert ({p | @train example_TFP example_logp example_info (1 / 100) 8 [] ()
               = Ok p}) as [[r sf] Hrun]
      by (eexists; vm_compute; reflexivity).
  exists r, sf. split; [exact Hrun|].
  exact (@frozen_parameters_never_mutated example_TFP
           example_logp example_info (1 / 100) 8 [] () r sf Hrun).
Defined.

Lemma num_steps_l_floor (num_steps : Z) : num_steps_l num_steps = (num_steps / 4)%Z.
Proof. unfold num_steps_l. apply Qceiling_Z. Qed.

(** C2 (the program at a budget that is not a multiple of four).  With
    [num_steps = 10] line 89 gives 2 and each of the four optimizations
    records 2 losses, where the ceiling of 10/4 is 3; with the default
    10000 the two agree on 2500, with 10001 the program takes 2500 steps
    where the ceiling is 2501, and with 3 it takes none. *)
Theorem train_steps_per_stage_floor :
  num_steps_l 10 = 2%Z /\ steps_per_stage_as_specified 10 = 3%Z /\
  (exists r ls sf,
      @train_with_losses example_TFP example_logp example_info (1 / 100) 10 [] ()
        = Ok (r, ls, sf) /\
      length (loss_m ls) = 2%nat /\ length (loss_s ls) = 2%nat /\
      length (loss_i ls) = 2%nat /\ length (loss ls) = 2%nat) /\
  (num_steps_l 10000 = 2500%Z /\ steps_per_stage_as_specified 10000 = 2500%Z) /\
  (num_steps_l 10001 = 2500%Z /\ steps_per_stage_as_specified 10001 = 2501%Z) /\
  (num_steps_l 3 = 0%Z /\ steps_per_stage_as_specified 3 = 1%Z).
Proof.
  split; [reflexivity|]. split; [reflexivity|]. split.
  - eexists _, _, _. split; [vm_compute; reflexivity|].
    repeat split; reflexivity.
  - repeat split; reflexivity.
Qed.

(** * Further properties *)

(** ** Rating with arbitrary thresholds *)

Lemma rate_loop_Ok_inv thresholds scores : forall rates out,
  rate_loop thresholds scores rates = Ok out ->
  exists labels, out = rates ++ labels /\
    Forall2 (fun s l => rate_one thresholds s = Ok l) scores labels.
Proof.
  induction scores as [|s rest IH]; intros rates out; cbn [rate_loop].
  - intros [= <-]. exists []. split; [by rewrite app_nil_r|constructor].
  - destruct (rate_one thresholds s) as [l|e] eqn:Hone; cbn [mbind result_bind];
      [|discriminate].
    intros Hrest. apply IH in Hrest as (labels & -> & Hall).
    exists (l :: labels). split; [by rewrite <- app_assoc|]. by constructor.
Qed.

Lemma rate_loop_Raise_inv thresholds scores : forall rates e,
  rate_loop thresholds scores rates = Raise e ->
  exists s, s ∈ scores /\ rate_one thresholds s = Raise e.
Proof.
  induction scores as [|s rest IH]; intros rates e; cbn [rate_loop].
  - discriminate.
  - destruct (rate_one thresholds s) as [l|e'] eqn:Hone; cbn [mbind result_bind].
    + intros Hrest. apply IH in Hrest as (s' & Hin & Hs').
      exists s'. split; [by apply list_elem_of_further|exact Hs'].
    + intros [= <-]. exists s. split; [apply list_elem_of_here|exact Hone].
Qed.

Lemma rate_one_Raise_inv thresholds s e :
  rate_one thresholds s = Raise e ->
  exists key, e = KeyError key /\ key ∈ consulted_keys /\ thresholds !! key = None.
Proof.
  unfold rate_one, getitem, consulted_keys.
  destruct (thresholds !! HIGHLY_BELOW) eqn:H1; cbn [mbind result_bind];
    [|intros [= <-]; eexists; split; [reflexivity|]; split;
      [repeat constructor|exact H1]].
  destruct (gt s _); [discriminate|].
  destruct (thresholds !! BELOW) eqn:H2; cbn [mbind result_bind];
    [|intros [= <-]; eexists; split; [reflexivity|]; split;
      [repeat constructor|exact H2]].
  destruct (gt s _); [discriminate|].
  destruct (thresholds !! ALONG) eqn:H3; cbn [mbind result_bind];
    [|intros [= <-]; eexists; split; [reflexivity|]; split;
      [repeat constructor|exact H3]].
  destruct (gt s _); [discriminate|].
  destruct (thresholds !! ABOVE) eqn:H4; cbn [mbind result_bind];
    [|intros [= <-]; eexists; split; [reflexivity|]; split;
      [repeat constructor|exact H4]].
  destruct (gt s _); discriminate.
Qed.

Lemma rate_one_total thresholds s :
  Forall (fun key => is_Some (thresholds !! key)) consulted_keys ->
  exists l, rate_one thresholds s = Ok l.
Proof.
  intros Hkeys. destruct (rate_one thresholds s) as [l|e] eqn:Hone; [by eexists|].
  apply rate_one_Raise_inv in Hone as (key & _ & Hin & Hnone).
  rewrite Forall_forall in Hkeys. apply Hkeys in Hin as [v Hv]. congruence.
Qed.

(** X1. Whenever the dictionary has the four keys that the chain can
    look up, [rate] returns one label per score, in the order of the
    scores, the label of a score depending on that score alone. *)
Theorem rate_total_with_consulted_keys
    (thresholds : gmap string np_float) (scores : list np_float) :
  Forall (fun key => is_Some (thresholds !! key)) consulted_keys ->
  exists rates,
    rate scores (Some thresholds) = Ok rates /\
    length rates = length scores /\
    forall i s, scores !! i = Some s ->
      exists l, rates !! i = Some l /\ rate [s] (Some thresholds) = Ok [l].
Proof.
  intros Hkeys. unfold rate.
  destruct (rate_loop thresholds scores []) as [rates|e] eqn:Hloop.
  - apply rate_loop_Ok_inv in Hloop as (labels & -> & Hall). cbn [app].
    exists labels. split; [reflexivity|]. split.
    + symmetry. by eapply Forall2_length.
    + intros i s Hs.
      destruct (Forall2_lookup_l _ _ _ _ _ Hall Hs) as (l & Hl & Hone).
      exists l. split; [exact Hl|]. cbn [rate_loop]. by rewrite Hone.
  - apply rate_loop_Raise_inv in Hloop as (s & _ & Hs).
    destruct (rate_one_total thresholds s Hkeys) as [l Hl]. congruence.
Qed.

Lemma rate_total_with_consulted_keys_witness :
  exists rates,
    rate [Finite 2; NaN]
      (Some (<[HIGHLY_BELOW := Finite 1]> (<[BELOW := Finite 0.5]>
              (<[ALONG := Finite 0]> (<[ABOVE := Finite (-1)]> ∅))))) = Ok rates /\
    length rates = 2%nat /\
    forall i s, [Finite 2; NaN] !! i = Some s ->
      exists l, rates !! i = Some l /\
        rate [s]
          (Some (<[HIGHLY_BELOW := Finite 1]> (<[BELOW := Finite 0.5]>
                  (<[ALONG := Finite 0]> (<[ABOVE := Finite (-1)]> ∅))))) = Ok [l].
Proof.
  apply (rate_total_with_consulted_keys
           (<[HIGHLY_BELOW := Finite 1]> (<[BELOW := Finite 0.5]>
              (<[ALONG := Finite 0]> (<[ABOVE := Finite (-1)]> ∅))))
           [Finite 2; NaN]).
  repeat constructor; eexists; vm_compute; reflexivity.
Defined.

(** X2. The only way [rate] fails is a [KeyError] for one of the four
    keys it looks up, that key being absent from the dictionary; it
    never fails for the key of HIGHLY ABOVE TREND. *)
Theorem rate_fails_only_on_missing_consulted_key
    (thresholds : gmap string np_float) (scores : list np_float) (e : exn) :
  rate scores (Some thresholds) = Raise e ->
  exists key, e = KeyError key /\ key ∈ consulted_keys /\
              key <> HIGHLY_ABOVE /\ thresholds !! key = None.
Proof.
  unfold rate. intros Hloop.
  apply rate_loop_Raise_inv in Hloop as (s & _ & Hs).
  apply rate_one_Raise_inv in Hs as (key & -> & Hin & Hnone).
  exists key. split; [reflexivity|]. split; [exact Hin|]. split; [|exact Hnone].
  intros ->. unfold consulted_keys in Hin.
  repeat (apply elem_of_cons in Hin as [Hin|Hin]; [discriminate|]).
  by apply elem_of_nil in Hin.
Qed.

Lemma rate_fails_only_on_missing_consulted_key_witness :
  exists key, KeyError ALONG = KeyError key /\ key ∈ consulted_keys /\
              key <> HIGHLY_ABOVE /\
              (<[HIGHLY_BELOW := Finite 3]> (<[BELOW := Finite 2]> ∅)
                 : gmap string np_float) !! key = None.
Proof.
  apply (rate_fails_only_on_missing_consulted_key
           (<[HIGHLY_BELOW := Finite 3]> (<[BELOW := Finite 2]> ∅))
           [Finite 4; Finite 1]).
  vm_compute. reflexivity.
Defined.

(** X3. Thresholds are looked up only when their branch is reached: a
    dictionary that has the key of HIGHLY BELOW TREND and no other rates
    every array whose scores are all above that threshold, and an empty
    array is rated by any dictionary. *)
Theorem rate_looks_up_lazily
    (thresholds : gmap string np_float) (t : np_float) (scores : list np_float) :
  thresholds !! HIGHLY_BELOW = Some t ->
  Forall (fun s => gt s t = true) scores ->
  rate scores (Some thresholds) = Ok (replicate (length scores) HIGHLY_BELOW) /\
  rate [] (Some (delete HIGHLY_BELOW thresholds)) = Ok [].
Proof.
  intros Ht Hall. split; [|reflexivity]. unfold rate.
  rewrite (rate_loop_pointwise thresholds (fun _ => HIGHLY_BELOW)).
  - cbn [app]. f_equal. induction scores as [|s rest IH]; [reflexivity|].
    cbn. f_equal. apply IH. by inversion Hall.
  - intros s Hs. rewrite Forall_forall in Hall. unfold rate_one, getitem.
    rewrite Ht. cbn [mbind result_bind]. by rewrite (Hall s Hs).
Qed.

Lemma rate_looks_up_lazily_witness :
  rate [Finite 1; PInf] (Some {[HIGHLY_BELOW := Finite 0]})
    = Ok (replicate (length [Finite 1; PInf]) HIGHLY_BELOW) /\
  rate [] (Some (delete HIGHLY_BELOW ({[HIGHLY_BELOW := Finite 0]}
                                      : gmap string np_float))) = Ok [].
Proof.
  apply (rate_looks_up_lazily {[HIGHLY_BELOW := Finite 0]} (Finite 0)
           [Finite 1; PInf]).
  - vm_compute. reflexivity.
  - repeat constructor.
Defined.

Lemma gt_monotone (q q' : Q) (t : np_float) :
  (q <= q')%Q -> gt (Finite q) t = true -> gt (Finite q') t = true.
Proof.
  intros Hle. destruct t as [y| | |]; cbn [gt]; try done.
  rewrite !Qlt_bool_true. lra.
Qed.

Lemma label_index_values :
  label_index HIGHLY_BELOW = 0%nat /\ label_index BELOW = 1%nat /\
  label_index ALONG = 2%nat /\ label_index ABOVE = 3%nat /\
  label_index HIGHLY_ABOVE = 4%nat.
Proof. repeat split; vm_compute; reflexivity. Qed.

Lemma rate_one_monotone thresholds (q q' : Q) (l l' : string) :
  (q <= q')%Q ->
  rate_one thresholds (Finite q) = Ok l ->
  rate_one thresholds (Finite q') = Ok l' ->
  (label_index l' <= label_index l)%nat.
Proof.
  intros Hle. pose proof (gt_monotone q q' ) as Hmono.
  destruct label_index_values as (I0 & I1 & I2 & I3 & I4).
  unfold rate_one, getitem.
  destruct (thresholds !! HIGHLY_BELOW) as [t1|]; cbn [mbind result_bind];
    [|discriminate].
  destruct (gt (Finite q') t1) eqn:G1'; [intros _ [= <-]; rewrite I0; lia|].
  destruct (gt (Finite q) t1) eqn:G1;
    [rewrite (Hmono t1 Hle G1) in G1'; discriminate|].
  destruct (thresholds !! BELOW) as [t2|]; cbn [mbind result_bind];
    [|discriminate].
  destruct (gt (Finite q') t2) eqn:G2'.
  { intros Hl [= <-]. rewrite I1.
    destruct (gt (Finite q) t2); [injection Hl as <-; rewrite I1; lia|].
    destruct (thresholds !! ALONG) as [t3|]; cbn [mbind result_bind] in Hl;
      [|discriminate].
    destruct (gt (Finite q) t3); [injection Hl as <-; rewrite I2; lia|].
    destruct (thresholds !! ABOVE) as [t4|]; cbn [mbind result_bind] in Hl;
      [|discriminate].
    destruct (gt (Finite q) t4); injection Hl as <-; rewrite ?I3, ?I4; lia. }
  destruct (gt (Finite q) t2) eqn:G2;
    [rewrite (Hmono t2 Hle G2) in G2'; discriminate|].
  destruct (thresholds !! ALONG) as [t3|]; cbn [mbind result_bind];
    [|discriminate].
  destruct (gt (Finite q') t3) eqn:G3'.
  { intros Hl [= <-]. rewrite I2.
    destruct (gt (Finite q) t3); [injection Hl as <-; rewrite I2; lia|].
    destruct (thresholds !! ABOVE) as [t4|]; cbn [mbind result_bind] in Hl;
      [|discriminate].
    destruct (gt (Finite q) t4); injection Hl as <-; rewrite ?I3, ?I4; lia. }
  destruct (gt (Finite q) t3) eqn:G3;
    [rewrite (Hmono t3 Hle G3) in G3'; discriminate|].
  destruct (thresholds !! ABOVE) as [t4|]; cbn [mbind result_bind];
    [|discriminate].
  destruct (gt (Finite q') t4) eqn:G4'.
  { intros Hl [= <-]. rewrite I3.
    destruct (gt (Finite q) t4); injection Hl as <-; rewrite ?I3, ?I4; lia. }
  destruct (gt (Finite q) t4) eqn:G4;
    [rewrite (Hmono t4 Hle G4) in G4'; discriminate|].
  intros [= <-] [= <-]. lia.
Qed.

(** X4. For every dictionary of thresholds, in whatever order its values
    are, and for the defaults, rating is monotone: of two finite scores
    of one array, the larger never gets a label further down the chain
    than the smaller. *)
Theorem rate_monotone (thresholds : option (gmap string np_float))
    (scores : list Q) (rates : list string) (i j : nat) (q q' : Q) (l l' : string) :
  rate (map Finite scores) thresholds = Ok rates ->
  scores !! i = Some q -> scores !! j = Some q' -> (q <= q')%Q ->
  rates !! i = Some l -> rates !! j = Some l' ->
  (label_index l' <= label_index l)%nat.
Proof.
  intros Hrate Hi Hj Hle Hl Hl'.
  assert (rate_loop (thresholds_of thresholds) (map Finite scores) [] = Ok rates)
    as Hloop by (destruct thresholds; exact Hrate).
  apply rate_loop_Ok_inv in Hloop as (labels & -> & Hall). cbn [app] in *.
  assert (forall k x y, scores !! k = Some x -> labels !! k = Some y ->
            rate_one (thresholds_of thresholds) (Finite x) = Ok y) as Hone.
  { intros k x y Hx Hy.
    eapply (Forall2_lookup_lr _ _ _ k (Finite x) y Hall); [|exact Hy].
    by rewrite list_lookup_fmap, Hx. }
  eapply rate_one_monotone; [exact Hle|by eapply Hone|by eapply Hone].
Qed.

Lemma rate_monotone_witness :
  (label_index BELOW <= label_index ABOVE)%nat.
Proof.
  apply (rate_monotone None [(-1)%Q; 2.5%Q] [ABOVE; BELOW] 0 1 (-1) 2.5 ABOVE BELOW);
    try reflexivity.
  lra.
Defined.

(** X5. Scores that are not finite are rated too: with any dictionary
    that has the four keys, NaN and minus infinity are HIGHLY ABOVE
    TREND, every comparison with them being false; with the defaults
    plus infinity is HIGHLY BELOW TREND. *)
Theorem rate_non_finite (thresholds : gmap string np_float) :
  Forall (fun key => is_Some (thresholds !! key)) consulted_keys ->
  rate [NaN; NInf] (Some thresholds) = Ok [HIGHLY_ABOVE; HIGHLY_ABOVE] /\
  rate [PInf; NaN; NInf] None = Ok [HIGHLY_BELOW; HIGHLY_ABOVE; HIGHLY_ABOVE].
Proof.
  intros Hkeys. split; [|vm_compute; reflexivity].
  rewrite Forall_forall in Hkeys. unfold consulted_keys in Hkeys.
  destruct (Hkeys HIGHLY_BELOW) as [t1 H1]; [repeat constructor|].
  destruct (Hkeys BELOW) as [t2 H2]; [repeat constructor|].
  destruct (Hkeys ALONG) as [t3 H3]; [repeat constructor|].
  destruct (Hkeys ABOVE) as [t4 H4]; [repeat constructor|].
  unfold rate. cbn [rate_loop]. unfold rate_one, getitem.
  rewrite H1, H2, H3, H4. cbn [mbind result_bind gt].
  destruct t1, t2, t3, t4; reflexivity.
Qed.

Lemma rate_non_finite_witness :
  rate [NaN; NInf] (Some default_thresholds) = Ok [HIGHLY_ABOVE; HIGHLY_ABOVE] /\
  rate [PInf; NaN; NInf] None = Ok [HIGHLY_BELOW; HIGHLY_ABOVE; HIGHLY_ABOVE].
Proof.
  apply (rate_non_finite default_thresholds).
  repeat constructor; eexists; vm_compute; reflexivity.
Defined.

(** ** Softplus and the price statistics *)


Lemma tensor_Forall_tmap (P : R -> Prop) (f : R -> R) (a : tensor) :
  (forall x, P (f x)) -> tensor_Forall P (tmap f a).
Proof.
  intros HP. destruct a as [x|v|m]; cbn [tmap tensor_Forall].
  - apply HP.
  - apply List.Forall_map, List.Forall_forall. intros x _. apply HP.
  - apply List.Forall_map, List.Forall_forall. intros r _.
    apply List.Forall_map, List.Forall_forall. intros x _. apply HP.
Qed.












(** ** Order scale, time basis and forecast *)

(** X9. The order scale of line 268 is one row of [order + 1] weights,
    the weight of coefficient [k] being [(order + 1 - k) / (order + 1)]:
    the weights start at 1, decrease strictly and stay positive. *)
Theorem order_scale_weights (order : nat) :
  exists row,
    order_scale_of order = T2 [row] /\ length row = (order + 1)%nat /\
    (forall k, (k <= order)%nat ->
       nth k row 0 = INR (order + 1 - k) / INR (order + 1) /\
       0 < nth k row 0 <= 1) /\
    nth 0 row 0 = 1 /\
    (forall k, (k < order)%nat -> nth (S k) row 0 < nth k row 0).
Proof.
  set (n := (order + 1)%nat).
  assert (0 < INR n) as Hn by (apply lt_0_INR; lia).
  assert (forall k, (k <= order)%nat ->
            nth k (rev (linspace (1 / INR n) 1 n)) 0 = INR (n - k) / INR n) as Hk.
  { intros k Hle. rewrite rev_nth by (rewrite length_linspace; lia).
    rewrite length_linspace, linspace_unit_grid by lia.
    do 2 f_equal. lia. }
  exists (rev (linspace (1 / INR n) 1 n)).
  split; [reflexivity|]. split; [by rewrite length_rev, length_linspace|].
  split; [|split].
  - intros k Hle. rewrite Hk by exact Hle. split; [reflexivity|].
    assert (0 < INR (n - k)) as Hpos by (apply lt_0_INR; lia).
    assert (INR (n - k) <= INR n) as Hle' by (apply le_INR; lia).
    split.
    + apply Rdiv_lt_0_compat; assumption.
    + apply (Rmult_le_reg_r (INR n)); [exact Hn|].
      replace (INR (n - k) / INR n * INR n) with (INR (n - k)) by (field; lra).
      lra.
  - rewrite Hk by lia. rewrite Nat.sub_0_r. field. lra.
  - intros k Hlt. rewrite !Hk by lia.
    assert (INR (n - S k) < INR (n - k)) as Hlt' by (apply lt_INR; lia).
    apply (Rmult_lt_reg_r (INR n)); [exact Hn|].
    replace (INR (n - S k) / INR n * INR n) with (INR (n - S k)) by (field; lra).
    replace (INR (n - k) / INR n * INR n) with (INR (n - k)) by (field; lra).
    exact Hlt'.
Qed.

Lemma estimate_logprice_statistics_std (phi psi basis mean std : tensor) :
  estimate_logprice_statistics phi psi basis = Ok (mean, std) -> std = softplus psi.
Proof.
  unfold estimate_logprice_statistics.
  destruct (np_dot phi basis); cbn [mbind result_bind]; [|discriminate].
  by intros [= _ <-].
Qed.

(** X10. The forecast continues the estimate: for coefficients [phi]
    ([N] rows, [order + 1] columns), the forecast of the log-price at
    offset 0 is the estimate at the last observed time step, the sum of
    the coefficients of the stock, and the forecast has the standard
    deviations of the estimate. *)
Theorem forecast_starts_at_last_estimate
    (phi psi : list (list R)) (N order t horizon : nat) :
  is_matrix phi N (order + 1) -> is_matrix psi N 1 -> (0 < t)%nat ->
  exists basis est std pred,
    time_basis t order = Ok (T2 basis) /\
    estimate_logprice_statistics (T2 phi) (T2 psi) (T2 basis) = Ok (T2 est, std) /\
    estimate_logprice_statistics (T2 phi) (T2 psi) (tt_pred t horizon order)
      = Ok (T2 pred, std) /\
    is_matrix est N t /\ is_matrix pred N (horizon + 1) /\
    forall i, (i < N)%nat ->
      entry pred i 0 = entry est i (t - 1) /\
      entry est i (t - 1) = big_sum (fun k => entry phi i k) (order + 1).
Proof.
  intros Hphi Hpsi Ht.
  assert (0 < INR t) as HtR by (apply lt_0_INR; exact Ht).
  destruct (time_basis_spec t order Ht) as (basis & Hbasis & Hbshape & Hbentry).
  destruct (tt_pred_spec t horizon order Ht) as (fb & Hfb & Hfshape & Hfentry).
  destruct (estimate_logprice_statistics_spec phi psi basis N (order + 1) t
              Hphi Hpsi Hbshape ltac:(lia))
    as (est & std & Hest & Heshape & _ & Heentry & _).
  destruct (estimate_logprice_statistics_spec phi psi fb N (order + 1) (horizon + 1)
              Hphi Hpsi Hfshape ltac:(lia))
    as (pred & pstd & Hpred & Hpshape & _ & Hpentry & _).
  rewrite <- Hfb in Hpred.
  pose proof (estimate_logprice_statistics_std _ _ _ _ _ Hest) as Hstd.
  pose proof (estimate_logprice_statistics_std _ _ _ _ _ Hpred) as Hpstd.
  exists basis, est, (T2 std), pred.
  split; [exact Hbasis|]. split; [exact Hest|].
  split; [by rewrite Hstd, <- Hpstd|].
  split; [exact Heshape|]. split; [exact Hpshape|].
  intros i Hi.
  assert (entry est i (t - 1) = big_sum (fun k => entry phi i k) (order + 1)) as He.
  { rewrite Heentry by lia. apply big_sum_ext. intros k Hk.
    rewrite Hbentry by lia. replace (t - 1 + 1)%nat with t by lia.
    replace (INR t / INR t) with 1 by (field; lra). rewrite pow1. ring. }
  split; [|exact He]. rewrite He, Hpentry by lia.
  apply big_sum_ext. intros k Hk. rewrite Hfentry by lia. cbn [INR].
  replace ((INR t + 0) / INR t) with 1 by (field; lra). rewrite pow1. ring.
Qed.

Lemma forecast_starts_at_last_estimate_witness :
  exists basis est std pred,
    time_basis 2 1 = Ok (T2 basis) /\
    estimate_logprice_statistics (T2 [[1; 2]]) (T2 [[0]]) (T2 basis) = Ok (T2 est, std) /\
    estimate_logprice_statistics (T2 [[1; 2]]) (T2 [[0]]) (tt_pred 2 5 1)
      = Ok (T2 pred, std) /\
    is_matrix est 1 2 /\ is_matrix pred 1 (5 + 1) /\
    forall i, (i < 1)%nat ->
      entry pred i 0 = entry est i (2 - 1) /\
      entry est i (2 - 1) = big_sum (fun k => entry [[1; 2]] i k) (1 + 1).
Proof.
  apply (forecast_starts_at_last_estimate [[1; 2]] [[0]] 1 1 2 5);
    try (split; [reflexivity|repeat constructor]); lia.
Defined.



(** ** Growth *)

Lemma big_sum_scal (f : nat -> R) (a : R) (n : nat) :
  big_sum (fun k => f k * a) n = big_sum f n * a.
Proof.
  revert f. induction n as [|n IH]; intros f.
  - unfold big_sum. cbn. ring.
  - rewrite !big_sum_S, IH. ring.
Qed.

Lemma derivable_pt_lim_eq (f g : R -> R) (x l : R) :
  (forall y, f y = g y) -> derivable_pt_lim f x l -> derivable_pt_lim g x l.
Proof.
  intros Hfg Hf eps Heps. destruct (Hf eps Heps) as [delta Hdelta].
  exists delta. intros h Hh Hlt. rewrite <- !Hfg. by apply Hdelta.
Qed.

Lemma derivable_big_sum (n : nat) : forall (f : nat -> R -> R) (f' : nat -> R) (x : R),
  (forall k, (k < n)%nat -> derivable_pt_lim (f k) x (f' k)) ->
  derivable_pt_lim (fun y => big_sum (fun k => f k y) n) x (big_sum f' n).
Proof.
  induction n as [|n IH]; intros f f' x Hf.
  - apply (derivable_pt_lim_eq (fun _ => 0)); [reflexivity|].
    apply derivable_pt_lim_const.
  - rewrite big_sum_S.
    apply (derivable_pt_lim_eq
             (plus_fct (f 0%nat) (fun y => big_sum (fun k => f (S k) y) n))).
    + intros y. unfold plus_fct. by rewrite big_sum_S.
    + apply derivable_pt_lim_plus; [apply Hf; lia|].
      apply (IH (fun k => f (S k)) (fun k => f' (S k))). intros k Hk. apply Hf. lia.
Qed.

(** One term of the trend and its slope. *)
Lemma derivable_trend_term (a : R) (t k : nat) (x : R) :
  (0 < t)%nat ->
  derivable_pt_lim (fun tau => a * (tau / INR t) ^ k) x
    (a * (INR k * (x / INR t) ^ pred k) * / INR t).
Proof.
  intros Ht.
  apply (derivable_pt_lim_eq
           (mult_real_fct a
              (comp (fun y => y ^ k) (mult_real_fct (/ INR t) id)))).
  - intros y. unfold mult_real_fct, comp, id. f_equal. f_equal. unfold Rdiv. ring.
  - replace (a * (INR k * (x / INR t) ^ pred k) * / INR t)
      with (a * (INR k * (x / INR t) ^ pred k * (/ INR t * 1))) by ring.
    apply derivable_pt_lim_scal.
    apply derivable_pt_lim_comp.
    + apply derivable_pt_lim_scal. apply derivable_pt_lim_id.
    + replace (x / INR t) with (mult_real_fct (/ INR t) id x)
        by (unfold mult_real_fct, id, Rdiv; ring).
      apply derivable_pt_lim_pow.
Qed.

(** The slope of the trend at the last observed time step. *)
Lemma trend_slope_at_end (c : list R) (t : nat) :
  (0 < t)%nat ->
  derivable_pt_lim (trend c t) (INR t)
    (big_sum (fun k => INR k * nth k c 0) (length c) / INR t).
Proof.
  intros Ht. assert (0 < INR t) as HtR by (apply lt_0_INR; exact Ht).
  unfold trend.
  replace (big_sum (fun k => INR k * nth k c 0) (length c) / INR t)
    with (big_sum (fun k => nth k c 0 * (INR k * (INR t / INR t) ^ pred k) * / INR t)
            (length c)).
  - apply (derivable_big_sum (length c)
             (fun k tau => nth k c 0 * (tau / INR t) ^ k)).
    intros k _. by apply derivable_trend_term.
  - unfold Rdiv at 2. rewrite <- big_sum_scal. apply big_sum_ext. intros k _.
    replace (INR t / INR t) with 1 by (field; lra). rewrite pow1. ring.
Qed.

Lemma nth_drop (l : list R) (n k : nat) : nth k (drop n l) 0 = nth (n + k) l 0.
Proof. by rewrite !nth_lookup, lookup_drop. Qed.

(** X12. For coefficients [phi] with [order + 1] columns and [t > 0]
    observed time steps, the growth of stock [i] is the sum of
    [k * phi[i, k]] over [k = 1, ..., order], divided by [t]; it is the
    slope, at the last observed time step, of the trend of the stock,
    the polynomial whose values at the time steps are the estimated mean
    log-prices. *)
Theorem growth_is_trend_slope (phi : list (list R)) (N order t : nat) :
  is_matrix phi N (order + 1) -> (0 < t)%nat ->
  exists g basis mean,
    growth (T2 phi) order t = Ok (T1 g) /\ length g = N /\
    time_basis t order = Ok (T2 basis) /\
    np_dot (T2 phi) (T2 basis) = Ok (T2 mean) /\
    forall i, (i < N)%nat ->
      nth i g 0 = big_sum (fun k => INR (k + 1) * entry phi i (k + 1)) order / INR t /\
      (forall j, (j < t)%nat ->
         entry mean i j = trend (nth i phi []) t (INR (j + 1))) /\
      derivable_pt_lim (trend (nth i phi []) t) (INR t) (nth i g 0).
Proof.
  intros Hphi Ht. pose proof Hphi as [HN Hcols].
  assert (0 < INR t) as HtR by (apply lt_0_INR; exact Ht).
  destruct (time_basis_spec t order Ht) as (basis & Hbasis & Hbshape & Hbentry).
  destruct (matmul_spec phi basis N (order + 1) t Hphi Hbshape ltac:(lia))
    as (mean & Hmm & _ & Hmentry).
  assert (length (arange 1 (order + 1)) = order) as Hlen
      by (unfold arange; rewrite length_map, length_seq; lia).
  assert (forall r, In r phi -> length (drop 1 r) = order) as Hdrop.
  { intros r Hr. rewrite List.Forall_forall in Hcols.
    rewrite length_drop, (Hcols r Hr). lia. }
  exists (map (fun x => x / INR t)
            (map (fun r => inner r (arange 1 (order + 1))) (map (drop 1) phi))),
    basis, mean.
  split; [|split; [|split; [|split]]].
  - unfold growth. cbn [slice_cols_from mbind result_bind np_dot].
    rewrite forallb_row_lengths; [reflexivity|].
    apply List.Forall_map, List.Forall_forall. intros r Hr. cbn.
    rewrite Hlen. by apply Hdrop.
  - by rewrite !length_map.
  - exact Hbasis.
  - cbn [np_dot]. by rewrite Hmm.
  - intros i Hi.
    assert (length (nth i phi []) = (order + 1)%nat) as Hrow
        by (eapply is_matrix_row; eauto).
    assert (nth i (map (fun x => x / INR t)
                     (map (fun r => inner r (arange 1 (order + 1)))
                        (map (drop 1) phi))) 0
            = big_sum (fun k => INR (k + 1) * entry phi i (k + 1)) order / INR t)
      as Hg.
    { rewrite !map_map.
      rewrite (nth_map_lt _ phi i [] 0) by lia.
      f_equal. rewrite inner_big_sum by (rewrite Hlen, length_drop, Hrow; lia).
      rewrite length_drop, Hrow. replace (order + 1 - 1)%nat with order by lia.
      apply big_sum_ext. intros k Hk. rewrite nth_drop. unfold arange, entry.
      rewrite (nth_map_lt INR _ k 0%nat 0) by (rewrite length_seq; lia).
      rewrite seq_nth by lia.
      replace (1 + k)%nat with (k + 1)%nat by lia. ring. }
    split; [exact Hg|]. split.
    + intros j Hj. rewrite Hmentry by lia. unfold trend. rewrite Hrow.
      apply big_sum_ext. intros k Hk. rewrite Hbentry by lia. reflexivity.
    + rewrite Hg.
      replace (big_sum (fun k => INR (k + 1) * entry phi i (k + 1)) order)
        with (big_sum (fun k => INR k * nth k (nth i phi []) 0)
                (length (nth i phi []))).
      * by apply trend_slope_at_end.
      * rewrite Hrow. replace (order + 1)%nat with (S order) by lia.
        rewrite big_sum_S. cbn [INR]. rewrite Rmult_0_l, Rplus_0_l.
        apply big_sum_ext. intros k Hk. unfold entry.
        replace (k + 1)%nat with (S k) by lia. reflexivity.
Qed.

Lemma growth_is_trend_slope_witness :
  exists g basis mean,
    growth (T2 [[1; 2; 3]]) 2 4 = Ok (T1 g) /\ length g = 1%nat /\
    time_basis 4 2 = Ok (T2 basis) /\
    np_dot (T2 [[1; 2; 3]]) (T2 basis) = Ok (T2 mean) /\
    forall i, (i < 1)%nat ->
      nth i g 0
        = big_sum (fun k => INR (k + 1) * entry [[1; 2; 3]] i (k + 1)) 2 / INR 4 /\
      (forall j, (j < 4)%nat ->
         entry mean i j = trend (nth i [[1; 2; 3]] []) 4 (INR (j + 1))) /\
      derivable_pt_lim (trend (nth i [[1; 2; 3]] []) 4) (INR 4) (nth i g 0).
Proof.
  apply (growth_is_trend_slope [[1; 2; 3]] 1 2 4).
  - split; [reflexivity|repeat constructor].
  - lia.
Defined.

(** ** Structure of the models *)

(** X13. The four models are nested: each has the two priors of the
    market level first, a finer level adds its two priors after those of
    the coarser levels, and the last entry is always the one observation
    layer, built on the time basis; the models have 3, 5, 7 and 9
    entries. *)
Theorem define_model_nests_priors (info : info_t) :
  is_Ok (len (order_scale info)) ->
  exists market sector industry stock,
    length market = 2%nat /\ length sector = 2%nat /\
    length industry = 2%nat /\ length stock = 2%nat /\
    define_model info "market" = Ok (market ++ [observation (tt info)]) /\
    define_model info "sector" = Ok (market ++ sector ++ [observation (tt info)]) /\
    define_model info "industry"
      = Ok (market ++ sector ++ industry ++ [observation (tt info)]) /\
    define_model info "stock"
      = Ok (market ++ sector ++ industry ++ stock ++ [observation (tt info)]).
Proof.
  intros [n Hn]. unfold define_model. rewrite Hn. cbn [mbind result_bind].
  eexists [_; _], [_; _], [_; _], [_; _].
  repeat split; reflexivity.
Qed.

Lemma define_model_nests_priors_witness :
  exists market sector industry stock,
    length market = 2%nat /\ length sector = 2%nat /\
    length industry = 2%nat /\ length stock = 2%nat /\
    define_model example_info "market"
      = Ok (market ++ [observation (tt example_info)]) /\
    define_model example_info "sector"
      = Ok (market ++ sector ++ [observation (tt example_info)]) /\
    define_model example_info "industry"
      = Ok (market ++ sector ++ industry ++ [observation (tt example_info)]) /\
    define_model example_info "stock"
      = Ok (market ++ sector ++ industry ++ stock ++ [observation (tt example_info)]).
Proof.
  apply (define_model_nests_priors example_info). eexists. reflexivity.
Defined.

(** X14. [define_model] takes the polynomial order from the number of
    rows of the order scale.  With the one-row order scale that
    [__main__] builds, the order it works with is 0 whatever the number
    of weights: the location of the prior of the market coefficients is
    the single entry 0, and the prior gets one column per coefficient
    only by broadcasting the location against the scale, four times the
    weights. *)
Theorem define_model_order_from_rows (info : info_t) (level : string)
    (m : list layer) (row : list R) :
  order_scale info = T2 [row] ->
  define_model info level = Ok m ->
  m !! 0%nat = Some (Dist {| loc := T2 [[0]]; scale := T2 [map (Rmult 4) row] |}) /\
  bop Rplus (T2 [[0]]) (T2 [map (Rmult 4) row])
    = Ok (T2 [map (fun x => 0 + 4 * x) row]).
Proof.
  intros Hscale. unfold define_model. rewrite Hscale. cbn [len mbind result_bind].
  split.
  - destruct (bool_decide (level ∉ available_levels)); [discriminate|].
    injection H as <-.
    repeat match goal with
           | |- context [bool_decide ?P] => destruct (bool_decide P)
           end; reflexivity.
  - cbn [bop]. unfold bmat. cbn [length]. rewrite decide_True by reflexivity.
    cbn [zip zip_with mapR fst snd]. unfold brow.
    destruct (decide (length [0] = length (map (Rmult 4) row))) as [Hlen|Hlen].
    + destruct row as [|x [|y row]]; try discriminate. reflexivity.
    + cbn [mbind result_bind fmap result_fmap]. by rewrite map_map.
Qed.

Lemma define_model_order_from_rows_witness :
  exists m,
    define_model example_info "stock" = Ok m /\
    m !! 0%nat
      = Some (Dist {| loc := T2 [[0]]; scale := T2 [map (Rmult 4) [1; 1 / 2]] |}) /\
    bop Rplus (T2 [[0]]) (T2 [map (Rmult 4) [1; 1 / 2]])
      = Ok (T2 [map (fun x => 0 + 4 * x) [1; 1 / 2]]).
Proof.
  destruct (define_model_known example_info "stock") as (m & Hm & _).
  - eexists. reflexivity.
  - repeat constructor.
  - exists m. split; [exact Hm|].
    exact (define_model_order_from_rows example_info "stock" m [1; 1 / 2]
             eq_refl Hm).
Defined.

(** ** The variables of a run of [train] *)

Lemma tensor_Forall_zeros_like (a : tensor) :
  tensor_Forall (fun x => x = 0) (zeros_like a).
Proof. unfold zeros_like. by apply tensor_Forall_tmap. Qed.

(** X15. A parameter of a stage is created as a fresh variable at the
    end of the store, holding an array of zeros; the variables that
    exist already and the optimizer are left as they are. *)
Theorem new_parameter_is_fresh_zero `{TFP} (model : list layer) (lo hi i : nat)
    (s : state) (v : tfval) (s' : state) :
  new_parameter model lo hi i s = Ok (v, s') ->
  v = Var (length (store s)) /\
  store s' = store s ++ [numpy s' v] /\
  tensor_Forall (fun x => x = 0) (numpy s' v) /\
  optimizer s' = optimizer s.
Proof.
  unfold new_parameter, mbind, M_bind, sample, lift, tf_Variable.
  destruct (sample_from model [] s) as [[xs s1]|e] eqn:Hsample; [|discriminate].
  apply sample_from_store in Hsample as [Hstore Hopt].
  destruct (slice_index xs lo hi i) as [x|e]; [|discriminate].
  intros [= <- <-]. unfold numpy, read. cbn [store optimizer].
  rewrite Hstore, Hopt.
  rewrite lookup_app_r by lia. rewrite Nat.sub_diag. cbn [lookup list_lookup default].
  repeat split. apply tensor_Forall_zeros_like.
Qed.

Lemma new_parameter_is_fresh_zero_witness :
  exists v s',
    @new_parameter example_TFP
      (match define_model example_info "market" with Ok m => m | Raise _ => [] end)
      0 2 0 (@Build_state example_TFP [T0 5] 0%nat ()) = Ok (v, s') /\
    v = Var 1 /\ @store example_TFP s' = [T0 5] ++ [@numpy example_TFP s' v] /\
    tensor_Forall (fun x => x = 0) (@numpy example_TFP s' v) /\
    @optimizer example_TFP s' = 0%nat.
Proof.
  assert ({p | @new_parameter example_TFP
                 (match define_model example_info "market" with
                  | Ok m => m
                  | Raise _ => []
                  end)
                 0 2 0 (@Build_state example_TFP [T0 5] 0%nat ())
               = Ok p}) as [[v s'] Hrun]
      by (eexists; vm_compute; reflexivity).
  exists v, s'. split; [exact Hrun|].
  exact (@new_parameter_is_fresh_zero example_TFP _ 0 2 0 _ v s' Hrun).
Defined.

Section TrainRun.
Context `{TFP}.

(** The four stages of a run, with what each does to the store. *)
Lemma train_stage_effects (logp : list (list R)) (info : info_t)
    (learning_rate : R) (num_steps : Z) (σ : list tensor) (g : rng)
    (r : trained) (ls : losses) (sf : state) :
  train_with_losses logp info learning_rate num_steps σ g = Ok (r, ls, sf) ->
  exists s1 s2 s3 vm wm vs ws vi wi am bm a_s b_s ai bi,
    stage_effect {| store := σ; optimizer := Adam learning_rate; gen := g |}
      s1 vm wm (loss_m ls) (num_steps_l num_steps) /\
    stage_effect s1 s2 vs ws (loss_s ls) (num_steps_l num_steps) /\
    stage_effect s2 s3 vi wi (loss_i ls) (num_steps_l num_steps) /\
    stage_effect s3 sf (phi r) (psi r) (loss ls) (num_steps_l num_steps) /\
    phi_m r = Const am /\ psi_m r = Const bm /\
    phi_s r = Const a_s /\ psi_s r = Const b_s /\
    phi_i r = Const ai /\ psi_i r = Const bi.
Proof.
  unfold train_with_losses.
  set (n := num_steps_l num_steps).
  set (s0 := {| store := σ; optimizer := Adam learning_rate; gen := g |}).
  cbn [mbind result_bind].
  destruct (market_stage logp info n s0) as [[[[vm wm] lm] s1]|e] eqn:Hmarket;
    cbn [mbind result_bind]; [|discriminate].
  destruct (sector_stage logp info n vm wm s1)
    as [[[[[[cm dm] vs] ws] lsec] s2]|e] eqn:Hsector;
    cbn [mbind result_bind]; [|discriminate].
  destruct (industry_stage logp info n cm dm vs ws s2)
    as [[[[[[cs ds] vi] wi] li] s3]|e] eqn:Hindustry;
    cbn [mbind result_bind]; [|discriminate].
  destruct (stock_stage logp info n cm dm cs ds vi wi s3)
    as [[[[[[ci di] v] w] l] s4]|e] eqn:Hstock;
    cbn [mbind result_bind]; [|discriminate].
  intros [= <- <- <-].
  cbn [phi_m psi_m phi_s psi_s phi_i psi_i phi psi loss_m loss_s loss_i loss].
  pose proof (market_stage_effect _ _ _ _ _ _ _ _ Hmarket) as Hm.
  pose proof (sector_stage_effect _ _ _ _ _ _ _ _ _ _ _ _ Hsector)
    as (-> & -> & Hs).
  pose proof (industry_stage_effect _ _ _ _ _ _ _ _ _ _ _ _ _ _ Hindustry)
    as (-> & -> & Hi).
  pose proof (stock_stage_effect _ _ _ _ _ _ _ _ _ _ _ _ _ _ _ _ Hstock)
    as (-> & -> & Hst).
  exists s1, s2, s3, vm, wm, vs, ws, vi, wi.
  do 6 eexists.
  split; [exact Hm|]. split; [exact Hs|]. split; [exact Hi|]. split; [exact Hst|].
  repeat split; reflexivity.
Qed.

End TrainRun.

(** X16. A run of [train] creates exactly eight variables, at the end of
    the store it is given; the variables that exist before the call are
    never written; the stock-level [phi] and [psi] are returned as the
    last two of the new variables and the six parameters of the coarser
    levels as constants. *)
Theorem train_creates_eight_variables `{TFP}
    (logp : list (list R)) (info : info_t) (learning_rate : R) (num_steps : Z)
    (σ : list tensor) (g : rng) (r : trained) (sf : state) :
  train logp info learning_rate num_steps σ g = Ok (r, sf) ->
  length (store sf) = (length σ + 8)%nat /\
  (forall l, (l < length σ)%nat -> store sf !! l = σ !! l) /\
  phi r = Var (length σ + 6) /\ psi r = Var (length σ + 7) /\
  (exists a b c d e f,
      phi_m r = Const a /\ psi_m r = Const b /\ phi_s r = Const c /\
      psi_s r = Const d /\ phi_i r = Const e /\ psi_i r = Const f).
Proof.
  unfold train.
  destruct (train_with_losses logp info learning_rate num_steps σ g)
    as [[[r' ls] s']|e] eqn:Hrun; cbn [mbind result_bind]; [|discriminate].
  intros [= <- <-].
  apply train_stage_effects in Hrun
    as (s1 & s2 & s3 & vm & wm & vs & ws & vi & wi & am & bm & a_s & b_s & ai & bi
        & Hm & Hs & Hi & Hst & Hconsts).
  destruct Hm as (_ & _ & Hlen1 & Hframe1 & _).
  destruct Hs as (_ & _ & Hlen2 & Hframe2 & _).
  destruct Hi as (_ & _ & Hlen3 & Hframe3 & _).
  destruct Hst as (Hphi & Hpsi & Hlen4 & Hframe4 & _).
  cbn [store] in *.
  split; [lia|]. split.
  - intros l Hl. rewrite Hframe4, Hframe3, Hframe2, Hframe1 by lia. reflexivity.
  - split; [rewrite Hphi; f_equal; lia|]. split; [rewrite Hpsi; f_equal; lia|].
    exists am, bm, a_s, b_s, ai, bi. tauto.
Qed.

Lemma train_creates_eight_variables_witness :
  exists r sf,
    @train example_TFP example_logp example_info (1 / 100) 8 [T0 5] () = Ok (r, sf) /\
    length (store sf) = (length [T0 5] + 8)%nat /\
    (forall l, (l < length [T0 5])%nat -> store sf !! l = [T0 5] !! l) /\
    phi r = Var (length [T0 5] + 6) /\ psi r = Var (length [T0 5] + 7) /\
    (exists a b c d e f,
        phi_m r = Const a /\ psi_m r = Const b /\ phi_s r = Const c /\
        psi_s r = Const d /\ phi_i r = Const e /\ psi_i r = Const f).
Proof.
  assert ({p | @train example_TFP example_logp example_info (1 / 100) 8 [T0 5] ()
               = Ok p}) as [[r sf] Hrun]
      by (eexists; vm_compute; reflexivity).
  exists r, sf. split; [exact Hrun|].
  exact (@train_creates_eight_variables example_TFP
           example_logp example_info (1 / 100) 8 [T0 5] () r sf Hrun).
Defined.

(** X17. With a budget of at least four steps, every one of the four
    optimizations of a run records [num_steps // 4] losses, so that the
    run takes [4 * (num_steps // 4)] steps in all: never more than the
    budget, and up to three fewer. *)
Theorem train_uses_budget_rounded_down `{TFP}
    (logp : list (list R)) (info : info_t) (learning_rate : R) (num_steps : Z)
    (σ : list tensor) (g : rng) (r : trained) (ls : losses) (sf : state) :
  (4 <= num_steps)%Z ->
  train_with_losses logp info learning_rate num_steps σ g = Ok (r, ls, sf) ->
  length (loss_m ls) = Z.to_nat (num_steps / 4) /\
  length (loss_s ls) = Z.to_nat (num_steps / 4) /\
  length (loss_i ls) = Z.to_nat (num_steps / 4) /\
  length (loss ls) = Z.to_nat (num_steps / 4) /\
  (num_steps - 3 <=
     Z.of_nat (length (loss_m ls) + length (loss_s ls)
               + length (loss_i ls) + length (loss ls)) <= num_steps)%Z.
Proof.
  intros Hbudget Hrun.
  apply train_stage_iterations in Hrun as (Hm & Hs & Hi & Hst).
  rewrite Hm, Hs, Hi, Hst. repeat split; try reflexivity.
  - rewrite !Nat2Z.inj_add, Z2Nat.id by (apply Z.div_pos; lia).
    pose proof (Z.div_mod num_steps 4 ltac:(lia)).
    pose proof (Z.mod_pos_bound num_steps 4 ltac:(lia)). lia.
  - rewrite !Nat2Z.inj_add, Z2Nat.id by (apply Z.div_pos; lia).
    pose proof (Z.div_mod num_steps 4 ltac:(lia)).
    pose proof (Z.mod_pos_bound num_steps 4 ltac:(lia)). lia.
Qed.

Lemma train_uses_budget_rounded_down_witness :
  exists r ls sf,
    @train_with_losses example_TFP example_logp example_info (1 / 100) 11 [] ()
      = Ok (r, ls, sf) /\
    length (loss_m ls) = Z.to_nat (11 / 4) /\
    length (loss_s ls) = Z.to_nat (11 / 4) /\
    length (loss_i ls) = Z.to_nat (11 / 4) /\
    length (loss ls) = Z.to_nat (11 / 4) /\
    (11 - 3 <=
       Z.of_nat (length (loss_m ls) + length (loss_s ls)
                 + length (loss_i ls) + length (loss ls)) <= 11)%Z.
Proof.
  assert ({p | @train_with_losses example_TFP example_logp example_info
                 (1 / 100) 11 [] () = Ok p}) as [[[r ls] sf] Hrun]
      by (eexists; vm_compute; reflexivity).
  exists r, ls, sf. split; [exact Hrun|].
  exact (@train_uses_budget_rounded_down example_TFP
           example_logp example_info (1 / 100) 11 [] () r ls sf ltac:(lia) Hrun).
Defined.

(** ** Uncertainty bands *)

Lemma brow_same (f : R -> R -> R) (u v : list R) :
  length u = length v -> brow f u v = Ok (zip_with f u v).
Proof. intros Hlen. unfold brow. by rewrite decide_True. Qed.

(** Combining two arrays of the same shape. *)
Lemma bop_same (f : R -> R -> R) (a b : list (list R)) (N T : nat) :
  is_matrix a N T -> is_matrix b N T ->
  exists c, bop f (T2 a) (T2 b) = Ok (T2 c) /\ is_matrix c N T /\
    forall i t, (i < N)%nat -> (t < T)%nat ->
      entry c i t = f (entry a i t) (entry b i t).
Proof.
  intros [HaN HaT] [HbN HbT].
  exists (map (fun uv => zip_with f (fst uv) (snd uv)) (zip a b)).
  assert (forall u v, In (u, v) (zip a b) -> length u = T /\ length v = T) as Hrows.
  { intros u v Huv. rewrite List.Forall_forall in HaT, HbT. split.
    - apply HaT. eapply in_combine_l, Huv.
    - apply HbT. eapply in_combine_r, Huv. }
  split; [|split].
  - cbn [bop]. unfold bmat. rewrite decide_True by lia.
    rewrite (mapR_total _ (fun uv => zip_with f (fst uv) (snd uv))); [reflexivity|].
    intros [u v] Huv. cbn [fst snd]. apply brow_same.
    destruct (Hrows u v Huv). lia.
  - split.
    + rewrite length_map, length_zip. lia.
    + apply List.Forall_map, List.Forall_forall. intros [u v] Huv. cbn [fst snd].
      rewrite length_zip_with. destruct (Hrows u v Huv). lia.
  - intros i t Hi Ht. unfold entry.
    rewrite (nth_map_lt _ (zip a b) i ([], []) []) by (rewrite length_zip; lia).
    change (zip a b) with (combine a b).
    rewrite (combine_nth a b i [] []) by lia. cbn [fst snd].
    assert (length (nth i a []) = T) as Hu
        by (rewrite List.Forall_forall in HaT; apply HaT, nth_In; lia).
    assert (length (nth i b []) = T) as Hv
        by (rewrite List.Forall_forall in HbT; apply HbT, nth_In; lia).
    apply nth_zip_with; lia.
Qed.

(** X18. The band drawn around an estimated price brackets it: for the
    price statistics of a mean array and a deviation column, the lower
    limit is the price minus two deviations or zero, whichever is
    larger, the upper limit is the price plus two deviations, and
    [0 <= lower <= price <= upper]. *)
Theorem band_brackets_price (mu sigma : list (list R)) (N T : nat) :
  is_matrix mu N T -> is_matrix sigma N 1 ->
  exists price std lower upper,
    estimate_price_statistics (T2 mu) (T2 sigma) = Ok (T2 price, T2 std) /\
    band (T2 price) (T2 std) = Ok (T2 lower, T2 upper) /\
    forall i t, (i < N)%nat -> (t < T)%nat ->
      entry lower i t = Rmax 0 (entry price i t - 2 * entry std i t) /\
      entry upper i t = entry price i t + 2 * entry std i t /\
      0 <= entry lower i t <= entry price i t /\
      entry price i t <= entry upper i t.
Proof.
  intros Hmu Hsigma.
  destruct (estimate_price_statistics_spec mu sigma N T Hmu Hsigma)
    as (price & std & Hrun & Hpshape & Hsshape & Hentry).
  pose proof (is_matrix_map (Rmult 2) std N T Hsshape) as H2shape.
  destruct (bop_same Rminus price _ N T Hpshape H2shape) as (lo & Hlo & Hloshape & Hloe).
  destruct (bop_same Rplus price _ N T Hpshape H2shape) as (up & Hup & _ & Hupe).
  exists price, std, (map (map (Rmax 0)) lo), up.
  split; [exact Hrun|]. split.
  - unfold band. cbn [tmap]. rewrite Hlo. cbn [mbind result_bind]. rewrite Hup.
    reflexivity.
  - intros i t Hi Ht.
    rewrite (entry_map (Rmax 0) lo N T) by assumption.
    rewrite Hloe, Hupe by assumption.
    rewrite (entry_map (Rmult 2) std N T) by assumption.
    destruct (Hentry i t Hi Ht) as [Hp Hs].
    assert (0 < entry price i t) as Hppos by (rewrite Hp; apply exp_pos).
    assert (0 <= entry std i t) as Hspos by (rewrite Hs; apply sqrt_pos).
    split; [reflexivity|]. split; [reflexivity|].
    unfold Rmax. destruct (Rle_dec 0 (entry price i t - 2 * entry std i t)); lra.
Qed.

Lemma band_brackets_price_witness :
  exists price std lower upper,
    estimate_price_statistics (T2 [[0; 1]]) (T2 [[1]]) = Ok (T2 price, T2 std) /\
    band (T2 price) (T2 std) = Ok (T2 lower, T2 upper) /\
    forall i t, (i < 1)%nat -> (t < 2)%nat ->
      entry lower i t = Rmax 0 (entry price i t - 2 * entry std i t) /\
      entry upper i t = entry price i t + 2 * entry std i t /\
      0 <= entry lower i t <= entry price i t /\
      entry price i t <= entry upper i t.
Proof.
  apply (band_brackets_price [[0; 1]] [[1]] 1 2);
    split; try reflexivity; repeat constructor.
Defined.

(** ** The ranking option *)

(** X19. The ranking option is checked without regard to case but used
    with regard to it: a spelling of "rate" that is not all lower case
    passes the check of lines 236-237, so that the program runs, and is
    then ranked by growth at line 312. *)
Theorem rank_spelling_mismatch {world out : Type}
    (pipeline : string -> world -> world * result out) (w : world)
    (argsort : list R -> list nat) (rank : string) (scores growth : list R) :
  lower rank = "rate"%string -> rank <> "rate"%string ->
  main pipeline rank w = pipeline rank w /\
  rank_order argsort rank scores growth = rev (argsort growth).
Proof.
  intros Hlower Hne. split.
  - unfold main. rewrite Hlower.
    rewrite bool_decide_eq_false_2; [reflexivity|].
    intros Hnot. apply Hnot. unfold rank_modes. apply list_elem_of_here.
  - unfold rank_order. by rewrite decide_False.
Qed.

Lemma rank_spelling_mismatch_witness :
  main (fun (_ : string) (w : list string) => ("ran"%string :: w, Ok 0%nat)) "Rate" []
    = (["ran"%string], Ok 0%nat) /\
  rank_order (fun l => seq 0 (length l)) "Rate" [1; 2] [3; 4]
    = rev ((fun l => seq 0 (length l)) [3; 4]).
Proof.
  apply (rank_spelling_mismatch
           (fun (_ : string) (w : list string) => ("ran"%string :: w, Ok 0%nat)) []
           (fun l => seq 0 (length l)) "Rate" [1; 2] [3; 4]).
  - vm_compute. reflexivity.
  - discriminate.
Defined.

(** ** Targets of the sector and industry stages *)

Lemma elem_of_zip_seq {A} (l : list A) : forall (a j : nat) (x : A),
  (j, x) ∈ zip (seq a (length l)) l <-> (a <= j)%nat /\ l !! (j - a)%nat = Some x.
Proof.
  induction l as [|y l IH]; intros a j x; cbn [length seq zip zip_with].
  - rewrite elem_of_nil. split; [done|]. intros [_ Hx]. discriminate.
  - rewrite elem_of_cons, (IH (S a)). split.
    + intros [[= -> ->]|[Hle Hx]].
      * split; [lia|]. by rewrite Nat.sub_diag.
      * split; [lia|]. replace (j - a)%nat with (S (j - S a)) by lia. exact Hx.
    + intros [Hle Hx]. destruct (decide (j = a)) as [->|Hne].
      * left. rewrite Nat.sub_diag in Hx. cbn in Hx. by injection Hx as ->.
      * right. split; [lia|].
        replace (j - a)%nat with (S (j - S a)) in Hx by lia. exact Hx.
Qed.

Lemma elem_of_where_eq (ids : list nat) (k j : nat) :
  j ∈ where_eq ids k <-> ids !! j = Some k.
Proof.
  unfold where_eq. rewrite list_elem_of_fmap. split.
  - intros ([j' x] & -> & Hin). apply list_elem_of_filter in Hin as [Hx Hin].
    cbn [fst snd] in *. subst x. apply elem_of_zip_seq in Hin as [_ Hin].
    by rewrite Nat.sub_0_r in Hin.
  - intros Hj. exists (j, k). split; [reflexivity|].
    apply list_elem_of_filter. split; [reflexivity|].
    apply elem_of_zip_seq. split; [lia|]. by rewrite Nat.sub_0_r.
Qed.




Lemma big_sum_snoc (f : nat -> R) (n : nat) :
  big_sum f (S n) = big_sum f n + f n.
Proof.
  revert f. induction n as [|n IH]; intros f.
  - unfold big_sum. cbn. ring.
  - rewrite big_sum_S, IH, (big_sum_S f n). ring.
Qed.

Lemma big_sum_plus (f g : nat -> R) (n : nat) :
  big_sum (fun k => f k + g k) n = big_sum f n + big_sum g n.
Proof.
  induction n as [|n IH].
  - unfold big_sum. cbn. ring.
  - rewrite !big_sum_snoc, IH. ring.
Qed.

Lemma big_sum_indicator (x : nat) (c : R) (n : nat) :
  big_sum (fun k => if decide (x = k) then c else 0) n
  = if decide (x < n)%nat then c else 0.
Proof.
  induction n as [|n IH].
  - unfold big_sum. cbn. by rewrite decide_False by lia.
  - rewrite big_sum_snoc, IH.
    destruct (decide (x = n)) as [->|Hne].
    + rewrite decide_False by lia. rewrite decide_True by lia. ring.
    + destruct (decide (x < n)%nat).
      * rewrite decide_True by lia. ring.
      * rewrite decide_False by lia. ring.
Qed.

(** Summing over the groups of a partition is summing over everything. *)
Lemma sum_over_groups (f : nat -> R) (K : nat) (L : list (nat * nat)) :
  Forall (fun jx => (snd jx < K)%nat) L ->
  big_sum (fun k => foldr Rplus 0
                      (map f (map fst (filter (fun jx => snd jx = k) L)))) K
  = foldr Rplus 0 (map f (map fst L)).
Proof.
  induction L as [|[j x] L IH]; intros Hall.
  - cbn. unfold big_sum. induction (seq 0 K) as [|k ks IHk]; cbn; [reflexivity|].
    rewrite IHk. ring.
  - inversion Hall as [|? ? Hx HL]; subst. cbn [snd] in Hx.
    rewrite (big_sum_ext _
               (fun k => (if decide (x = k) then f j else 0)
                         + foldr Rplus 0
                             (map f (map fst (filter (fun jx => snd jx = k) L))))).
    + rewrite big_sum_plus, big_sum_indicator, decide_True by exact Hx.
      rewrite IH by exact HL. reflexivity.
    + intros k _. rewrite filter_cons. cbn [snd].
      destruct (decide (x = k)); cbn [map foldr fst]; ring.
Qed.

Lemma group_mean_rows (logp : list (list R)) (ids : list nat) (k : nat) :
  (length ids <= length logp)%nat ->
  group_mean logp ids k
  = Ok (mean0 (map (fun j => nth j logp []) (where_eq ids k))).
Proof.
  intros Hlen. unfold group_mean.
  rewrite (mapR_total _ (fun j => nth j logp [])); [reflexivity|].
  intros j Hj. apply list_elem_of_In, elem_of_where_eq, lookup_lt_Some in Hj.
  by rewrite (lookup_nth_lt logp j []) by lia.
Qed.

Lemma mean0_entry (rows : list (list R)) (T t : nat) :
  rows <> [] -> Forall (fun r => length r = T) rows -> (t < T)%nat ->
  INR (length rows) * nth t (mean0 rows) 0
  = foldr Rplus 0 (map (fun r => nth t r 0) rows).
Proof.
  intros Hne Hrows Ht. unfold mean0.
  assert (ncols rows = T) as ->
      by (destruct rows as [|r rows]; [done|]; by inversion Hrows).
  rewrite (nth_map_lt _ (seq 0 T) t 0%nat 0) by (rewrite length_seq; lia).
  rewrite seq_nth by lia. cbn [Nat.add]. unfold column.
  assert (0 < INR (length rows)) as Hpos
      by (apply lt_0_INR; destruct rows; [done|cbn; lia]).
  field. lra.
Qed.

(** X21. The targets of the stages are consistent: when every stock has
    a sector below [K] and every sector has a stock, the targets of the
    [K] sectors (line 100; likewise the industries, line 108) are all
    computed, and at every time step their average weighted by the
    number of stocks of each sector is the target of the market stage,
    the mean over all stocks (line 94). *)
Theorem sector_targets_average_to_market
    (logp : list (list R)) (ids : list nat) (K N T t : nat) :
  is_matrix logp N T -> length ids = N -> (0 < N)%nat ->
  Forall (fun x => (x < K)%nat) ids ->
  (forall k, (k < K)%nat -> where_eq ids k <> []) ->
  (t < T)%nat ->
  exists targets,
    mapR (group_mean logp ids) (seq 0 K) = Ok targets /\
    length targets = K /\
    big_sum (fun k => INR (length (where_eq ids k)) * entry targets k t) K
    = INR N * nth t (mean0 logp) 0.
Proof.
  intros Hlogp Hids HN Hbelow Hnonempty Ht. pose proof Hlogp as [HlogpN HlogpT].
  exists (map (fun k => mean0 (map (fun j => nth j logp []) (where_eq ids k)))
            (seq 0 K)).
  split; [|split].
  - apply mapR_total. intros k _. apply group_mean_rows. lia.
  - by rewrite length_map, length_seq.
  - assert (logp <> []) as Hne by (intros ->; cbn in HlogpN; lia).
    rewrite <- HlogpN at 1.
    rewrite (mean0_entry logp T t Hne HlogpT Ht).
    rewrite (big_sum_ext _
               (fun k => foldr Rplus 0
                  (map (fun j => entry logp j t)
                     (map fst (filter (fun jx => snd jx = k)
                                 (zip (seq 0 (length ids)) ids)))))).
    + rewrite sum_over_groups.
      * assert (map fst (zip (seq 0 (length ids)) ids) = seq 0 (length ids))
          as Hfst.
        { clear. generalize 0%nat. induction ids as [|x ids IH]; intros a;
            [reflexivity|]. cbn. by rewrite IH. }
        rewrite Hfst, Hids, <- HlogpN.
        clear. unfold entry. generalize (@nil R) at 1.
        induction logp as [|r logp IH]; intros d; [reflexivity|].
        cbn [length seq map foldr nth]. f_equal.
        rewrite <- seq_shift, map_map. cbn [nth]. apply (IH d).
      * apply Forall_forall. intros [j x] Hjx. cbn [snd].
        apply elem_of_zip_seq in Hjx as [_ Hx].
        rewrite List.Forall_forall in Hbelow. apply Hbelow.
        apply list_elem_of_In. by eapply list_elem_of_lookup_2.
    + intros k Hk. unfold entry at 1.
      rewrite (nth_map_lt _ (seq 0 K) k 0%nat []) by (rewrite length_seq; lia).
      rewrite seq_nth by lia. cbn [Nat.add].
      set (G := where_eq ids k).
      replace (length G) with (length (map (fun j => nth j logp []) G))
        by apply length_map.
      rewrite (mean0_entry _ T t).
      * rewrite map_map. reflexivity.
      * specialize (Hnonempty k Hk). fold G in Hnonempty.
        destruct G; [done|discriminate].
      * apply List.Forall_map, List.Forall_forall. intros j Hj. cbn.
        apply list_elem_of_In, elem_of_where_eq, lookup_lt_Some in Hj.
        rewrite List.Forall_forall in HlogpT. apply HlogpT, nth_In. lia.
      * exact Ht.
Qed.

Lemma sector_targets_average_to_market_witness :
  exists targets,
    mapR (group_mean [[0; 1]; [2; 3]; [4; 6]] [0; 1; 0]%nat) (seq 0 2) = Ok targets /\
    length targets = 2%nat /\
    big_sum (fun k => INR (length (where_eq [0; 1; 0]%nat k)) * entry targets k 1) 2
    = INR 3 * nth 1 (mean0 [[0; 1]; [2; 3]; [4; 6]]) 0.
Proof.
  apply (sector_targets_average_to_market
           [[0; 1]; [2; 3]; [4; 6]] [0; 1; 0]%nat 2 3 2 1).
  - split; [reflexivity|repeat constructor].
  - reflexivity.
  - lia.
  - repeat constructor.
  - intros [|[|k]] Hk; [discriminate|discriminate|lia].
  - lia.
Defined.

(** ** Scores out of bounds *)

Lemma mapR_all_raise {A B} (f : A -> result B) (l : list A) (e : exn) :
  l <> [] -> (forall x, In x l -> f x = Raise e) -> mapR f l = Raise e.
Proof.
  intros Hne Hf. destruct l as [|x l]; [done|].
  cbn [mapR]. rewrite Hf by (left; reflexivity). reflexivity.
Qed.

Lemma getcol_only_IndexError (x : tensor) (j : nat) (e : exn) :
  getcol x j = Raise e -> e = IndexError.
Proof.
  destruct x as [a|v|m]; cbn [getcol]; try (by intros [= <-]).
  induction m as [|r m IH]; cbn [mapR fmap result_fmap]; [discriminate|].
  destruct (r !! j); cbn [mbind result_bind]; [|by intros [= <-]].
  destruct (mapR _ m); cbn [mbind result_bind fmap result_fmap] in *;
    [discriminate|]. exact IH.
Qed.

(** X22. The score needs the forecast column of the horizon and a last
    observation: with at least one stock, a forecast array that has no
    column [horizon], or a log-price array without time steps, makes
    line 289 fail with [IndexError]. *)
Theorem scores_index_errors (logp_pred logp : list (list R)) (std : tensor)
    (horizon N H : nat) :
  is_matrix logp_pred N H -> (0 < N)%nat ->
  (H <= horizon)%nat \/ is_matrix logp N 0 ->
  scores (T2 logp_pred) (T2 logp) std horizon = Raise IndexError.
Proof.
  intros [HN HH] HNpos Hcases. unfold scores.
  destruct Hcases as [Hshort|[HlogpN HlogpT]].
  - cbn [getcol]. rewrite (mapR_all_raise _ logp_pred IndexError).
    + reflexivity.
    + intros ->. cbn in HN. lia.
    + intros r Hr. rewrite List.Forall_forall in HH.
      rewrite lookup_ge_None_2; [reflexivity|]. rewrite (HH r Hr). lia.
  - destruct (getcol (T2 logp_pred) horizon) as [a|e] eqn:Hcol;
      cbn [mbind result_bind].
    + cbn [lastcol]. rewrite (mapR_all_raise _ logp IndexError).
      * reflexivity.
      * intros ->. cbn in HlogpN. lia.
      * intros r Hr. rewrite List.Forall_forall in HlogpT.
        specialize (HlogpT r Hr). destruct r; [reflexivity|discriminate].
    + by rewrite (getcol_only_IndexError _ _ _ Hcol).
Qed.

Lemma scores_index_errors_witness :
  scores (T2 [[0; 1]]) (T2 [[0]]) (T2 [[1]]) 2 = Raise IndexError.
Proof.
  apply (scores_index_errors [[0; 1]] [[0]] (T2 [[1]]) 2 1 2).
  - split; [reflexivity|repeat constructor].
  - lia.
  - left. lia.
Defined.
